(** * A shallow embedding of the OBJ viewer in [main_file.cpp]

    The program loads a Wavefront scene through tinyobjloader, turns every
    retained shape into a [Mesh] whose vertex data lives in OpenGL buffer
    objects, and then renders the meshes every frame in two passes (opaque
    first, transparent second).

    The embedding follows the source function by function:
    - [loadTex]     (lines 89-102)   texture cache in front of [stbi_load];
    - [loadOBJ]     (lines 105-168)  shape filter, material resolution and the
                                     two nested face/vertex loops;
    - [keyCB], [resizeCB] (lines 172-181);
    - [drawMesh]    (lines 184-189);
    - [frame]       (lines 215-230)  one iteration of the loop of [main].

    C++ [float] is IEEE binary32, modelled by the standard library's
    [spec_float] at precision 24 and maximal exponent 128.  The program's
    globals and the OpenGL context are threaded explicitly through a small
    state monad; an out-of-range [operator[]] or a signed overflow is
    undefined behaviour in C++ and is the outcome [Undef] here. *)

From Stdlib Require Import ZArith Lia Floats.SpecFloat.
From stdpp Require Import gmap strings list.

Local Open Scope Z_scope.

(** ** IEEE binary32 arithmetic *)

Module F32.

Definition prec : Z := 24.
Definition emax : Z := 128.

Abbreviation float := spec_float.

Definition add : float -> float -> float := SFadd prec emax.
Definition sub : float -> float -> float := SFsub prec emax.
Definition mul : float -> float -> float := SFmul prec emax.
Definition div : float -> float -> float := SFdiv prec emax.
Definition neg : float -> float := SFopp.
Definition ltb : float -> float -> bool := SFltb.
Definition leb : float -> float -> bool := SFleb.

(** Conversion of an integer, rounding to nearest even. *)
Definition of_Z (z : Z) : float := binary_normalize prec emax z 0 false.

(** The value of the decimal literal [num/den]: both integers used below
    are exactly representable and the division is correctly rounded, so
    this is the float nearest to the decimal, as the compiler produces. *)
Definition lit (num den : Z) : float := div (of_Z num) (of_Z den).

(** A float that obeys the format: canonical mantissa, exponent in range. *)
Definition valid (x : float) : bool := valid_binary prec emax x.

Definition zero : float := S754_zero false.
Definition one : float := Eval vm_compute in of_Z 1.

(** The literals of the source. *)
Definition c0_999f : float := Eval vm_compute in lit 999 1000.
Definition c1_5f : float := Eval vm_compute in lit 3 2.
Definition c0_1f : float := Eval vm_compute in lit 1 10.
Definition c10_52905f : float := Eval vm_compute in lit 1052905 100000.
Definition c40f : float := Eval vm_compute in of_Z 40.
Definition c60f : float := Eval vm_compute in of_Z 60.
Definition c200f : float := Eval vm_compute in of_Z 200.

(** Conversion of a binary64 value ([double]) to binary32. *)
Definition of_double (d : float) : float :=
  match d with
  | S754_finite s m e => binary_round prec emax s m e
  | _ => d
  end.

End F32.

(** Binary64, for the clock of [glfwGetTime]. *)
Module F64.
Definition prec : Z := 53.
Definition emax : Z := 1024.
Definition sub : spec_float -> spec_float -> spec_float := SFsub prec emax.
Definition of_Z (z : Z) : spec_float := binary_normalize prec emax z 0 false.
End F64.

Abbreviation float := spec_float.

(** ** glm vectors and matrices

    [glm::vec3] and [glm::mat4] are plain aggregates of floats (a matrix is
    four column vectors).  The functions of glm that build and multiply
    matrices are not part of this repository; they are the interface [Glm]
    below. *)

Record vec3 := Vec3 { vx : float; vy : float; vz : float }.
Record vec4 := Vec4 { v4x : float; v4y : float; v4z : float; v4w : float }.
Record mat4 := Mat4 { col0 : vec4; col1 : vec4; col2 : vec4; col3 : vec4 }.

(** [glm::vec3(s)] *)
Definition vec3_splat (s : float) : vec3 := Vec3 s s s.
(** unary minus on [glm::vec3] *)
Definition vec3_neg (v : vec3) : vec3 :=
  Vec3 (F32.neg (vx v)) (F32.neg (vy v)) (F32.neg (vz v)).
(** [glm::mat4(1)]: the identity *)
Definition mat4_1 : mat4 :=
  Mat4 (Vec4 F32.one F32.zero F32.zero F32.zero)
       (Vec4 F32.zero F32.one F32.zero F32.zero)
       (Vec4 F32.zero F32.zero F32.one F32.zero)
       (Vec4 F32.zero F32.zero F32.zero F32.one).

Class Glm := {
  glm_translate : mat4 -> vec3 -> mat4;
  glm_rotate : mat4 -> float -> vec3 -> mat4;
  glm_lookAt : vec3 -> vec3 -> vec3 -> mat4;
  glm_perspective : float -> float -> float -> float -> mat4;
  glm_radians : float -> float;
  mat4_mul : mat4 -> mat4 -> mat4
}.

(** ** stb_image: the decoder *)

Record Image := {
  img_w : Z;
  img_h : Z;
  img_n : Z;               (* channel count *)
  img_data : list Z        (* the decoded bytes *)
}.

(** [stbi_load] is a function of the path: the files do not change while
    the program runs. *)
Class Stbi := { stbi_load : string -> option Image }.

(** ** tinyobjloader: the parsed scene *)

Record index_t := {
  vertex_index : Z;
  normal_index : Z;
  texcoord_index : Z
}.

Record mesh_t := {
  indices : list index_t;
  num_face_vertices : list nat;
  material_ids : list Z
}.

Record shape_t := {
  name : string;
  mesh : mesh_t
}.

Record material_t := {
  mat_name : string;
  diffuse : vec3;
  dissolve : float;
  diffuse_texname : string
}.

Record attrib_t := {
  vertices : list float;
  texcoords : list float
}.

Record Parsed := {
  p_attrib : attrib_t;
  p_shapes : list shape_t;
  p_materials : list material_t
}.

(** [tinyobj::LoadObj]: [inl] is success, [inr (warn, err)] is failure. *)
Class TinyObj := {
  LoadObj : string -> string -> Parsed + (string * string)
}.

(** ** The mesh structure (lines 74-83) *)

#[projections(primitive)]
Record Mesh := {
  vao : Z;
  vboPos : Z;
  vboUV : Z;
  tex : Z;
  hasTex : bool;
  kd : vec3;
  verts : Z;
  transparent : bool;
  opacity : float
}.

(** ** The OpenGL context

    Only the part of the context that the program drives.  Names are handed
    out by counters that start at 1 (0 is never a generated name). *)

Inductive Format := GL_RGB | GL_RGBA.

Inductive Uniform := U_tex | U_MVP | U_useTexture | U_baseColor | U_opacity.

Inductive GLCall :=
| glGenTextures (id : Z)
| glBindTexture (id : Z)
| glTexImage2D (fmt : Format) (w h : Z) (d : list Z)
| glTexParameteri_MIN_LINEAR
| glTexParameteri_MAG_LINEAR
| glGenVertexArrays (id : Z)
| glBindVertexArray (id : Z)
| glGenBuffers (id : Z)
| glBindBuffer (id : Z)
| glBufferData (data : list float)
| glEnableVertexAttribArray (i : Z)
| glVertexAttribPointer (i size : Z)
| glUniform1i (u : Uniform) (v : Z)
| glUniform3fv (u : Uniform) (v : vec3)
| glUniform1f (u : Uniform) (v : float)
| glUniformMatrix4fv (u : Uniform) (m : mat4)
| glActiveTexture0
| glDrawArrays_TRIANGLES (first count : Z)
| glDepthMask (b : bool)
| glClear_COLOR_DEPTH
| glViewport (x y w h : Z).

(** What the device sees at one [glDrawArrays]. *)
Record Draw := {
  d_vao : Z;
  d_count : Z;
  d_depth_write : bool;
  d_useTexture : Z;
  d_texture : Z;
  d_baseColor : vec3;
  d_opacity : float;
  d_MVP : mat4
}.

#[projections(primitive)]
Record GL := {
  next_texture : Z;
  next_buffer : Z;
  next_vertex_array : Z;
  texture_binding : Z;
  array_buffer_binding : Z;
  vertex_array_binding : Z;
  buffers : gmap Z (list float);
  depth_writemask : bool;
  u_useTexture : Z;
  u_baseColor : vec3;
  u_opacity : float;
  u_MVP : mat4;
  drawn : list Draw
}.

(** The context right after creation: depth writes are enabled. *)
Definition GL_init : GL := {|
  next_texture := 1; next_buffer := 1; next_vertex_array := 1;
  texture_binding := 0; array_buffer_binding := 0; vertex_array_binding := 0;
  buffers := ∅;
  depth_writemask := true;
  u_useTexture := 0; u_baseColor := vec3_splat F32.zero; u_opacity := F32.zero;
  u_MVP := mat4_1;
  drawn := []
|}.

(** The effect of one call on the context.  [glGen*] carries the name that
    the call returned; [glDrawArrays] records what is drawn under the state
    current at the call. *)
Definition gl_exec (c : GLCall) (g : GL) : GL :=
  let '(Build_GL nt nb nv tb ab vb bs dm ut bc op mvp dr) := g in
  match c with
  | glGenTextures id => Build_GL (id + 1) nb nv tb ab vb bs dm ut bc op mvp dr
  | glBindTexture id => Build_GL nt nb nv id ab vb bs dm ut bc op mvp dr
  | glGenVertexArrays id => Build_GL nt nb (id + 1) tb ab vb bs dm ut bc op mvp dr
  | glBindVertexArray id => Build_GL nt nb nv tb ab id bs dm ut bc op mvp dr
  | glGenBuffers id => Build_GL nt (id + 1) nv tb ab vb bs dm ut bc op mvp dr
  | glBindBuffer id => Build_GL nt nb nv tb id vb bs dm ut bc op mvp dr
  | glBufferData data => Build_GL nt nb nv tb ab vb (<[ab := data]> bs) dm ut bc op mvp dr
  | glUniform1i U_useTexture v => Build_GL nt nb nv tb ab vb bs dm v bc op mvp dr
  | glUniform3fv U_baseColor v => Build_GL nt nb nv tb ab vb bs dm ut v op mvp dr
  | glUniform1f U_opacity v => Build_GL nt nb nv tb ab vb bs dm ut bc v mvp dr
  | glUniformMatrix4fv U_MVP m => Build_GL nt nb nv tb ab vb bs dm ut bc op m dr
  | glDepthMask b => Build_GL nt nb nv tb ab vb bs b ut bc op mvp dr
  | glDrawArrays_TRIANGLES _ count =>
      Build_GL nt nb nv tb ab vb bs dm ut bc op mvp
        (dr ++ [{| d_vao := vb; d_count := count; d_depth_write := dm;
                   d_useTexture := ut; d_texture := tb; d_baseColor := bc;
                   d_opacity := op; d_MVP := mvp |}])
  | _ => g
  end.

(** ** The world: program globals, the OpenGL context and the trace of
    calls that leave the program *)

Inductive Event :=
| E_stbi_load (f : string)
| E_stbi_image_free
| E_stderr (s : string)
| E_gl (c : GLCall)
| E_glfwSwapBuffers
| E_glfwPollEvents.

#[projections(primitive)]
Record World := {
  texCache : gmap string Z;     (* line 86 *)
  meshes : list Mesh;           (* line 85 *)
  aspect : float;               (* line 171 *)
  ax : float;
  ay : float;
  sx : float;
  sy : float;
  gl : GL;
  trace : list Event
}.

(** The globals as initialised at line 85, 86 and 171. *)
Definition World_init : World := {|
  texCache := ∅; meshes := [];
  aspect := F32.one; ax := F32.zero; ay := F32.zero; sx := F32.zero; sy := F32.zero;
  gl := GL_init; trace := []
|}.

Definition set_texCache (f : gmap string Z -> gmap string Z) (w : World) : World :=
  let '(Build_World tc ms asp a b c d g t) := w in Build_World (f tc) ms asp a b c d g t.
Definition set_meshes (f : list Mesh -> list Mesh) (w : World) : World :=
  let '(Build_World tc ms asp a b c d g t) := w in Build_World tc (f ms) asp a b c d g t.
Definition set_aspect (x : float) (w : World) : World :=
  let '(Build_World tc ms asp a b c d g t) := w in Build_World tc ms x a b c d g t.
Definition set_ax (x : float) (w : World) : World :=
  let '(Build_World tc ms asp a b c d g t) := w in Build_World tc ms asp x b c d g t.
Definition set_ay (x : float) (w : World) : World :=
  let '(Build_World tc ms asp a b c d g t) := w in Build_World tc ms asp a x c d g t.
Definition set_sx (x : float) (w : World) : World :=
  let '(Build_World tc ms asp a b c d g t) := w in Build_World tc ms asp a b x d g t.
Definition set_sy (x : float) (w : World) : World :=
  let '(Build_World tc ms asp a b c d g t) := w in Build_World tc ms asp a b c x g t.
Definition set_gl (f : GL -> GL) (w : World) : World :=
  let '(Build_World tc ms asp a b c d g t) := w in Build_World tc ms asp a b c d (f g) t.
Definition log (e : Event) (w : World) : World :=
  let '(Build_World tc ms asp a b c d g t) := w in Build_World tc ms asp a b c d g (t ++ [e]).

(** ** The monad of the program *)

Inductive Outcome (A : Type) : Type :=
| Ret (a : A) (w : World)       (* normal return *)
| Exit (code : Z) (w : World)   (* [exit(code)] *)
| Undef.                        (* undefined behaviour *)
Arguments Ret {A} a w.
Arguments Exit {A} code w.
Arguments Undef {A}.

Definition Prog (A : Type) : Type := World -> Outcome A.

#[global] Instance Prog_ret : MRet Prog := λ A a w, Ret a w.
#[global] Instance Prog_bind : MBind Prog := λ A B f m w,
  match m w with
  | Ret a w' => f a w'
  | Exit c w' => Exit c w'
  | Undef => Undef
  end.

Definition get : Prog World := λ w, Ret w w.
Definition modify (f : World -> World) : Prog unit := λ w, Ret tt (f w).
Definition emit (e : Event) : Prog unit := modify (log e).
Definition exit {A} (code : Z) : Prog A := λ w, Exit code w.
Definition undef {A} : Prog A := λ _, Undef.
Definition lift {A} (o : option A) : Prog A :=
  match o with Some a => mret a | None => undef end.

(** A call into OpenGL: it acts on the context and is traced. *)
Definition do_call (c : GLCall) (w : World) : World :=
  log (E_gl c) (set_gl (gl_exec c) w).
Definition call (c : GLCall) : Prog unit := modify (do_call c).

(** [glGenTextures(1, &id)], [glGenBuffers(1, &id)], [glGenVertexArrays(1, &id)] *)
Definition gen_texture : Prog Z :=
  w ← get; let id := next_texture (gl w) in call (glGenTextures id);; mret id.
Definition gen_buffer : Prog Z :=
  w ← get; let id := next_buffer (gl w) in call (glGenBuffers id);; mret id.
Definition gen_vertex_array : Prog Z :=
  w ← get; let id := next_vertex_array (gl w) in call (glGenVertexArrays id);; mret id.

(** ** Machine integers and vector access *)

(** The range of [int]. *)
Definition int_ok (z : Z) : bool := (- 2 ^ 31 <=? z) && (z <? 2 ^ 31).

(** [(GLsizei) n] for a [size_t] value: reduction into the 32-bit signed range. *)
Definition to_GLsizei (n : Z) : Z := (n + 2 ^ 31) mod 2 ^ 32 - 2 ^ 31.

(** [v[k * i + j]] for [int i]: the index is computed in [int] (overflow is
    undefined) and converted to [size_t], so that a negative index is out of
    range like any index beyond the size. *)
Definition at_int {A} (v : list A) (k i j : Z) : option A :=
  if int_ok (k * i) && int_ok (k * i + j) && (0 <=? k * i + j)
  then v !! Z.to_nat (k * i + j) else None.

Section Program.
Context {glm : Glm} {stbi : Stbi} {tinyobj : TinyObj}.

(** ** [loadTex] (lines 89-102) *)
Definition loadTex (f : string) : Prog Z :=
  w ← get;
  match texCache w !! f with
  | Some id => mret id
  | None =>
      emit (E_stbi_load f);;
      match stbi_load f with
      | None => emit (E_stderr ("Failed to load " +:+ f));; mret 0
      | Some d =>
          let fmt := if img_n d =? 3 then GL_RGB else GL_RGBA in
          id ← gen_texture;
          call (glBindTexture id);;
          call (glTexImage2D fmt (img_w d) (img_h d) (img_data d));;
          call glTexParameteri_MIN_LINEAR;;
          call glTexParameteri_MAG_LINEAR;;
          emit E_stbi_image_free;;
          modify (set_texCache <[f := id]>);;
          mret id
      end
  end.

(** ** [loadOBJ] (lines 105-168) *)

(** The body of the inner loop (lines 139-148): one vertex is appended to
    [P] (three floats) and to [UV] (two floats). *)
Definition push_vertex (A : attrib_t) (idx : index_t)
    (acc : list float * list float) : option (list float * list float) :=
  let '(P, UV) := acc in
  x ← at_int (vertices A) 3 (vertex_index idx) 0;
  y ← at_int (vertices A) 3 (vertex_index idx) 1;
  z ← at_int (vertices A) 3 (vertex_index idx) 2;
  let P := P ++ [x; y; z] in
  if 0 <=? texcoord_index idx then
    u ← at_int (texcoords A) 2 (texcoord_index idx) 0;
    t ← at_int (texcoords A) 2 (texcoord_index idx) 1;
    let v := F32.sub F32.one t in
    Some (P, UV ++ [u; v])
  else Some (P, UV ++ [F32.zero; F32.zero]).

(** The inner loop (line 138): [n] iterations are left, the loop counter
    is [v]. *)
Fixpoint face_loop (A : attrib_t) (I : list index_t) (off v n : nat)
    (acc : list float * list float) : option (list float * list float) :=
  match n with
  | O => Some acc
  | S n' =>
      idx ← I !! (off + v)%nat;
      acc' ← push_vertex A idx acc;
      face_loop A I off (S v) n' acc'
  end.

(** The outer loop (lines 136-151) over [num_face_vertices].  The size of
    a face is a natural number here.  Line 137 reads it into [int fv], so
    this is the loop of the source for the sizes that an [int] holds,
    those below [2 ^ 31]; [faces_loop_int] below writes the conversion
    out. *)
Fixpoint faces_loop (A : attrib_t) (I : list index_t) (fvs : list nat) (off : nat)
    (acc : list float * list float) : option (list float * list float) :=
  match fvs with
  | [] => Some acc
  | fv :: fvs' =>
      acc' ← face_loop A I off 0 fv acc;
      faces_loop A I fvs' (off + fv)%nat acc'
  end.

(** The same two loops with the machine integers of lines 135-150 written
    out.  Line 137, [int fv = num_face_vertices[f]], reduces the size
    into the range of a 32-bit [int]; a size from [2 ^ 31] on of an
    [unsigned int] element becomes negative. *)
Definition to_int (n : nat) : Z := to_GLsizei (Z.of_nat n).

(** Arithmetic of [size_t], for a [size_t] of [W] bits: [off + v] at
    line 139 and [off += fv] at line 150, where the [int] is converted
    to [size_t] first. *)
Definition to_size_t (W z : Z) : Z := z mod 2 ^ W.

Fixpoint face_loop_int (W : Z) (A : attrib_t) (I : list index_t) (off v : Z) (n : nat)
    (acc : list float * list float) : option (list float * list float) :=
  match n with
  | O => Some acc
  | S n' =>
      idx ← I !! Z.to_nat (to_size_t W (off + v));
      acc' ← push_vertex A idx acc;
      face_loop_int W A I off (v + 1) n' acc'
  end.

(** The inner loop runs while [v < fv]: [Z.to_nat fv] times, which is no
    time for an [fv] that is not positive. *)
Fixpoint faces_loop_int (W : Z) (A : attrib_t) (I : list index_t) (fvs : list nat)
    (off : Z) (acc : list float * list float) : option (list float * list float) :=
  match fvs with
  | [] => Some acc
  | n :: fvs' =>
      let fv := to_int n in
      acc' ← face_loop_int W A I off 0 (Z.to_nat fv) acc;
      faces_loop_int W A I fvs' (to_size_t W (off + fv)) acc'
  end.

(** Line 114: the material index of the first face, or -1. *)
Definition first_material_id (shape : shape_t) : Z :=
  match material_ids (mesh shape) with
  | [] => -1
  | m :: _ => m
  end.

(** [M[mid]] for [mid >= 0] *)
Definition material_at (M : list material_t) (mid : Z) : option material_t :=
  M !! Z.to_nat mid.

(** Line 115 *)
Definition material_name (M : list material_t) (mid : Z) : option string :=
  if 0 <=? mid then mat_name <$> material_at M mid else Some EmptyString.

(** Line 117: the test that skips a shape. *)
Definition skipped (shape : shape_t) (matName : string) : bool :=
  String.eqb (name shape) "Water" || String.eqb matName "water".

(** Lines 118-123: [Mesh mesh{}] and the defaults. *)
Definition Mesh_default : Mesh := {|
  vao := 0; vboPos := 0; vboUV := 0;
  tex := 0; hasTex := false; kd := vec3_splat F32.one;
  verts := 0; transparent := false; opacity := F32.one
|}.

Definition with_material (m : Mesh) (mat : material_t) : Mesh :=
  {| vao := vao m; vboPos := vboPos m; vboUV := vboUV m;
     tex := tex m; hasTex := hasTex m;
     kd := diffuse mat;
     verts := verts m;
     transparent := F32.ltb (dissolve mat) F32.c0_999f;
     opacity := dissolve mat |}.

Definition with_texture (m : Mesh) (t : Z) : Mesh :=
  {| vao := vao m; vboPos := vboPos m; vboUV := vboUV m;
     tex := t; hasTex := true; kd := kd m;
     verts := verts m; transparent := transparent m; opacity := opacity m |}.

Definition with_buffers (m : Mesh) (n a p u : Z) : Mesh :=
  {| vao := a; vboPos := p; vboUV := u;
     tex := tex m; hasTex := hasTex m; kd := kd m;
     verts := n; transparent := transparent m; opacity := opacity m |}.

(** Lines 124-133: the material attributes of the mesh. *)
Definition resolve_material (M : list material_t) (mid : Z) : Prog Mesh :=
  if 0 <=? mid then
    mat ← lift (material_at M mid);
    let m := with_material Mesh_default mat in
    if negb (String.eqb (diffuse_texname mat) "") then
      t ← loadTex (diffuse_texname mat);
      mret (with_texture m t)
    else mret m
  else mret Mesh_default.

(** Lines 152-166: the vertex count, the vertex array, the two buffers. *)
Definition upload (m : Mesh) (P UV : list float) : Prog unit :=
  let n := to_GLsizei (Z.of_nat (length P) / 3) in
  a ← gen_vertex_array;
  call (glBindVertexArray a);;
  p ← gen_buffer;
  call (glBindBuffer p);;
  call (glBufferData P);;
  call (glEnableVertexAttribArray 0);;
  call (glVertexAttribPointer 0 3);;
  u ← gen_buffer;
  call (glBindBuffer u);;
  call (glBufferData UV);;
  call (glEnableVertexAttribArray 2);;
  call (glVertexAttribPointer 2 2);;
  call (glBindVertexArray 0);;
  modify (set_meshes (λ ms, ms ++ [with_buffers m n a p u])).

(** One iteration of the loop over the shapes (lines 113-167). *)
Definition load_shape (A : attrib_t) (M : list material_t) (shape : shape_t) : Prog unit :=
  let mid := first_material_id shape in
  matName ← lift (material_name M mid);
  if skipped shape matName then mret tt
  else
    m ← resolve_material M mid;
    acc ← lift (faces_loop A (indices (mesh shape))
                  (num_face_vertices (mesh shape)) 0 ([], []));
    upload m acc.1 acc.2.

Fixpoint load_shapes (A : attrib_t) (M : list material_t) (S : list shape_t) : Prog unit :=
  match S with
  | [] => mret tt
  | shape :: S' => load_shape A M shape;; load_shapes A M S'
  end.

Definition loadOBJ (file base : string) : Prog unit :=
  match LoadObj file base with
  | inr (warn, err) => emit (E_stderr (warn +:+ " " +:+ err));; exit 1
  | inl p => load_shapes (p_attrib p) (p_materials p) (p_shapes p)
  end.

(** ** Callbacks (lines 172-181) *)

Inductive Key := KEY_LEFT | KEY_RIGHT | KEY_UP | KEY_DOWN | KEY_other.
Inductive Action := PRESS | RELEASE | REPEAT.

Definition keyCB (k : Key) (a : Action) : Prog unit :=
  match a with
  | PRESS =>
      match k with
      | KEY_LEFT => modify (set_sy (F32.neg F32.c1_5f))
      | KEY_RIGHT => modify (set_sy F32.c1_5f)
      | KEY_UP => modify (set_sx (F32.neg F32.c1_5f))
      | KEY_DOWN => modify (set_sx F32.c1_5f)
      | KEY_other => mret tt
      end
  | RELEASE =>
      match k with
      | KEY_LEFT | KEY_RIGHT => modify (set_sy F32.zero)
      | KEY_UP | KEY_DOWN => modify (set_sx F32.zero)
      | KEY_other => mret tt
      end
  | REPEAT => mret tt
  end.

Definition resizeCB (w h : Z) : Prog unit :=
  modify (set_aspect (if h =? 0 then F32.one else F32.div (F32.of_Z w) (F32.of_Z h)));;
  call (glViewport 0 0 w h).

Inductive Callback := CB_key (k : Key) (a : Action) | CB_resize (w h : Z).

Definition run_callback (cb : Callback) : Prog unit :=
  match cb with
  | CB_key k a => keyCB k a
  | CB_resize w h => resizeCB w h
  end.

Fixpoint run_callbacks (cbs : list Callback) : Prog unit :=
  match cbs with
  | [] => mret tt
  | cb :: cbs' => run_callback cb;; run_callbacks cbs'
  end.

(** [glfwPollEvents] runs the callbacks of the pending events. *)
Definition glfwPollEvents (cbs : list Callback) : Prog unit :=
  emit E_glfwPollEvents;; run_callbacks cbs.

(** ** [drawMesh] (lines 184-189) *)
Definition drawMesh (m : Mesh) : Prog unit :=
  call (glUniform1i U_useTexture (if hasTex m then 1 else 0));;
  call (glUniform3fv U_baseColor (kd m));;
  call (glUniform1f U_opacity (opacity m));;
  (if hasTex m then call glActiveTexture0;; call (glBindTexture (tex m)) else mret tt);;
  call (glBindVertexArray (vao m));;
  call (glDrawArrays_TRIANGLES 0 (verts m)).

(** The two loops of lines 225 and 227: the meshes whose [transparent]
    flag is [b], in the order of the vector. *)
Fixpoint draw_pass (b : bool) (ms : list Mesh) : Prog unit :=
  match ms with
  | [] => mret tt
  | m :: ms' =>
      (if eqb (transparent m) b then drawMesh m else mret tt);;
      draw_pass b ms'
  end.

(** ** One iteration of the loop of [main] (lines 215-230) *)

Definition center : vec3 := Vec3 F32.zero F32.zero F32.c10_52905f.

(** Line 221 *)
Definition model_matrix (angleX angleY : float) : mat4 :=
  mat4_mul
    (mat4_mul (glm_translate mat4_1 (vec3_neg center))
              (glm_rotate mat4_1 angleX (Vec3 F32.one F32.zero F32.zero)))
    (glm_rotate mat4_1 angleY (Vec3 F32.zero F32.one F32.zero)).

(** Lines 218-219 *)
Definition view_matrix : mat4 :=
  glm_lookAt (Vec3 F32.zero F32.zero F32.c40f) (vec3_splat F32.zero)
             (Vec3 F32.zero F32.one F32.zero).

(** Line 220 *)
Definition projection_matrix (asp : float) : mat4 :=
  glm_perspective (glm_radians F32.c60f) asp F32.c0_1f F32.c200f.

(** What one frame receives from outside: the clock and the pending events. *)
Record FrameInput := {
  fi_time : float;               (* [glfwGetTime()], a double *)
  fi_events : list Callback
}.

(** The frame; [prev] is the local of [main], the result is its new value. *)
Definition frame (prev : float) (inp : FrameInput) : Prog float :=
  let cur := fi_time inp in
  let dt := F32.of_double (F64.sub cur prev) in
  w ← get;
  modify (set_ax (F32.add (ax w) (F32.mul (sx w) dt)));;
  modify (set_ay (F32.add (ay w) (F32.mul (sy w) dt)));;
  w ← get;
  let V := view_matrix in
  let P := projection_matrix (aspect w) in
  let M := model_matrix (ax w) (ay w) in
  let MVP := mat4_mul (mat4_mul P V) M in
  call glClear_COLOR_DEPTH;;
  call (glUniformMatrix4fv U_MVP MVP);;
  draw_pass false (meshes w);;
  call (glDepthMask false);;
  draw_pass true (meshes w);;
  call (glDepthMask true);;
  emit E_glfwSwapBuffers;;
  glfwPollEvents (fi_events inp);;
  mret cur.

(** The loop of line 214, for the frames that run before the window closes. *)
Fixpoint frames (prev : float) (inps : list FrameInput) : Prog float :=
  match inps with
  | [] => mret prev
  | inp :: inps' => cur ← frame prev inp; frames cur inps'
  end.

(** [main] from line 210 on (the window, the shaders and the fixed state of
    lines 192-209 come before); [t0] is the clock read at line 213. *)
Definition main_from_load (t0 : float) (inps : list FrameInput) : Prog unit :=
  loadOBJ "12987_Saltwater_Aquarium_v1_l1.obj" "./";;
  resizeCB 900 700;;
  frames t0 inps;;
  mret tt.

End Program.

(** * Specification vocabulary *)

(** ** Comparing a float with a decimal

    [real_lt x num den] says that the real number that [x] denotes is below
    [num/den] (for [0 < den]); [real_ge] that it is at least [num/den].
    Neither holds of a NaN.  Both are stated over the integers, scaling by
    the power of two of the exponent. *)
Definition real_lt (x : float) (num den : Z) : Prop :=
  match x with
  | S754_nan => False
  | S754_infinity s => s = true
  | S754_zero _ => 0 < num
  | S754_finite s m e =>
      if 0 <=? e then cond_Zopp s (Zpos m) * 2 ^ e * den < num
      else cond_Zopp s (Zpos m) * den < num * 2 ^ (- e)
  end.

Definition real_ge (x : float) (num den : Z) : Prop :=
  match x with
  | S754_nan => False
  | S754_infinity s => s = false
  | S754_zero _ => num <= 0
  | S754_finite s m e =>
      if 0 <=? e then num <= cond_Zopp s (Zpos m) * 2 ^ e * den
      else num * 2 ^ (- e) <= cond_Zopp s (Zpos m) * den
  end.

(** ** Reading the trace *)

(** The world in which a computation ends, when it ends in one. *)
Definition final {A} (o : Outcome A) : option World :=
  match o with
  | Ret _ w => Some w
  | Exit _ w => Some w
  | Undef => None
  end.

(** The world a computation leaves behind ([w] itself after undefined
    behaviour). *)
Definition run {A} (p : Prog A) (w : World) : World :=
  match p w with
  | Ret _ w' => w'
  | Exit _ w' => w'
  | Undef => w
  end.

(** Events that neither decode an image nor upload one. *)
Definition texture_silent (e : Event) : bool :=
  match e with
  | E_stbi_load _ => false
  | E_gl (glTexImage2D _ _ _ _) => false
  | _ => true
  end.

(** The decode attempts made on path [f]. *)
Definition is_decode_of (f : string) (e : Event) : bool :=
  match e with
  | E_stbi_load g => String.eqb f g
  | _ => false
  end.

Definition decode_attempts (f : string) (t : list Event) : nat :=
  length (List.filter (is_decode_of f) t).



(** Each [glTexImage2D] uploads the pixels that the latest [stbi_load]
    before it decoded; [attribute] scans the trace with the path of that
    latest call and collects, per upload, the path it belongs to. *)
Definition attribute (st : option string * list (option string)) (e : Event)
    : option string * list (option string) :=
  match e with
  | E_stbi_load f => (Some f, st.2)
  | E_gl (glTexImage2D _ _ _ _) => (st.1, st.2 ++ [st.1])
  | _ => st
  end.

Definition uploaded_paths (t : list Event) : list (option string) :=
  (fold_left attribute t (None, [])).2.

(** ** Test doubles for the collaborators *)

Definition glm_fixed : Glm := {|
  glm_translate := λ m _, m;
  glm_rotate := λ m _ _, m;
  glm_lookAt := λ _ _ _, mat4_1;
  glm_perspective := λ _ _ _ _, mat4_1;
  glm_radians := λ x, x;
  mat4_mul := λ a _, a
|}.

(** A decoder that knows no file. *)
Definition stbi_none : Stbi := {| stbi_load := λ _, None |}.

(** A decoder that knows one 1x1 RGB image, at ["glass.png"]. *)
Definition stbi_glass : Stbi := {|
  stbi_load := λ f,
    if String.eqb f "glass.png"
    then Some {| img_w := 1; img_h := 1; img_n := 3; img_data := [255; 255; 255] |}
    else None
|}.

(** A parser that returns the given scene for every file. *)
Definition tinyobj_of (p : Parsed) : TinyObj := {| LoadObj := λ _ _, inl p |}.

Definition f32 (num den : Z) : float := F32.lit num den.

(** One triangle and one quad over four vertices with two texture
    coordinates. *)
Definition demo_attrib : attrib_t := {|
  vertices := [F32.zero; F32.zero; F32.zero;
               F32.one; F32.zero; F32.zero;
               F32.one; F32.one; F32.zero;
               F32.zero; F32.one; F32.zero];
  texcoords := [f32 1 2; f32 2 10; F32.one; F32.one]
|}.

Definition ix (v t : Z) : index_t :=
  {| vertex_index := v; normal_index := -1; texcoord_index := t |}.

Definition triangle (ids : list Z) : mesh_t := {|
  indices := [ix 0 0; ix 1 1; ix 2 (-1)];
  num_face_vertices := [3%nat];
  material_ids := ids
|}.

Definition quad (ids : list Z) : mesh_t := {|
  indices := [ix 0 0; ix 1 1; ix 2 (-1); ix 3 (-1)];
  num_face_vertices := [4%nat];
  material_ids := ids
|}.

Definition demo_materials : list material_t := [
  {| mat_name := "glass"; diffuse := Vec3 (f32 1 2) (f32 1 2) F32.one;
     dissolve := f32 1 2; diffuse_texname := "glass.png" |};
  {| mat_name := "water"; diffuse := vec3_splat F32.one;
     dissolve := f32 3 10; diffuse_texname := "" |};
  {| mat_name := "Water"; diffuse := vec3_splat F32.one;
     dissolve := F32.one; diffuse_texname := "" |};
  {| mat_name := "rock"; diffuse := vec3_splat (f32 1 4);
     dissolve := F32.c0_999f; diffuse_texname := "missing.png" |}
].

(** The end-to-end scene of the testable properties: a shape named "Water"
    and a shape named "Glass" of dissolve 0.5 with a texture. *)
Definition demo_scene : Parsed := {|
  p_attrib := demo_attrib;
  p_shapes := [ {| name := "Water"; mesh := triangle [1] |};
                {| name := "Glass"; mesh := triangle [0] |};
                {| name := "Rock"; mesh := triangle [3] |} ];
  p_materials := demo_materials
|}.

Definition Glass : shape_t := {| name := "Glass"; mesh := triangle [0] |}.
Definition Rock : shape_t := {| name := "Rock"; mesh := triangle [3] |}.
Definition Quad : shape_t := {| name := "Quad"; mesh := quad [] |}.
(** A shape whose name differs from "Water" in case only. *)
Definition lower_water : shape_t := {| name := "water"; mesh := triangle [] |}.

(** Two shapes that share the material "rock", whose texture does not
    decode. *)
Definition twin_rocks : Parsed := {|
  p_attrib := demo_attrib;
  p_shapes := [ {| name := "Rock1"; mesh := triangle [3] |};
                {| name := "Rock2"; mesh := triangle [3] |} ];
  p_materials := demo_materials
|}.

(** [loadTex] called on each path of a list, in order. *)
Fixpoint resolve_all `{Stbi} (fs : list string) : Prog (list Z) :=
  match fs with
  | [] => mret []
  | f :: fs' => id ← loadTex f; ids ← resolve_all fs'; mret (id :: ids)
  end.

(** ** Invariants *)

(** A computation preserves [I] when every world it ends in satisfies [I]
    again. *)
Definition preserves (I : World -> Prop) {A} (p : Prog A) : Prop :=
  ∀ w, I w -> ∀ w', final (p w) = Some w' -> I w'.

(** A step is texture-neutral when it leaves the cache alone and adds only
    events that neither decode nor upload.  Everything the program does
    outside [loadTex] is made of such steps. *)
Definition neutral_step (w w' : World) : Prop :=
  texCache w' = texCache w ∧
  ∃ evs, trace w' = trace w ++ evs ∧ Forall (λ e, texture_silent e = true) evs.

Definition respects (I : World -> Prop) : Prop :=
  ∀ w w', neutral_step w w' -> I w -> I w'.

(** ** The three ways through [loadTex] *)

(** The world after a failed decode (lines 92-93). *)
Definition after_failed_load (f : string) (w : World) : World :=
  log (E_stderr ("Failed to load " +:+ f)) (log (E_stbi_load f) w).

(** The world after a decode and an upload (lines 92-101). *)
Definition after_upload (f : string) (d : Image) (w : World) : World :=
  let id := next_texture (gl w) in
  set_texCache <[f := id]>
    (log E_stbi_image_free
      (do_call glTexParameteri_MAG_LINEAR
        (do_call glTexParameteri_MIN_LINEAR
          (do_call (glTexImage2D (if img_n d =? 3 then GL_RGB else GL_RGBA)
                      (img_w d) (img_h d) (img_data d))
            (do_call (glBindTexture id)
              (do_call (glGenTextures id) (log (E_stbi_load f) w))))))).

Inductive loadTex_case `{Stbi} (f : string) (w : World) : Z -> World -> Prop :=
| LT_hit id : texCache w !! f = Some id -> loadTex_case f w id w
| LT_fail : texCache w !! f = None -> stbi_load f = None ->
    loadTex_case f w 0 (after_failed_load f w)
| LT_ok d : texCache w !! f = None -> stbi_load f = Some d ->
    loadTex_case f w (next_texture (gl w)) (after_upload f d w).

Definition scan (t : list Event) : option string * list (option string) :=
  fold_left attribute t (None, []).

(** Every upload so far belongs to a path of its own, which is in the cache
    and which the decoder accepts. *)
Definition uploads_inv `{Stbi} (w : World) : Prop :=
  NoDup (uploaded_paths (trace w)) ∧
  ∀ o, o ∈ uploaded_paths (trace w) ->
    ∃ f, o = Some f ∧ is_Some (texCache w !! f) ∧ is_Some (stbi_load f).

(** Path [f] is in the cache with handle [id]. *)
Definition cached (f : string) (id : Z) (w : World) : Prop := texCache w !! f = Some id.

(** ** The import, shape by shape *)

(** The world after [upload]: the vertex array takes the next free vertex
    array name, the two buffers the next two buffer names. *)
Definition after_buffers (m : Mesh) (P UV : list float) (w : World) : World :=
  let a := next_vertex_array (gl w) in
  let p := next_buffer (gl w) in
  let u := p + 1 in
  set_meshes (λ ms, ms ++ [with_buffers m (to_GLsizei (Z.of_nat (length P) / 3)) a p u])
    (do_call (glBindVertexArray 0)
    (do_call (glVertexAttribPointer 2 2)
    (do_call (glEnableVertexAttribArray 2)
    (do_call (glBufferData UV)
    (do_call (glBindBuffer u)
    (do_call (glGenBuffers u)
    (do_call (glVertexAttribPointer 0 3)
    (do_call (glEnableVertexAttribArray 0)
    (do_call (glBufferData P)
    (do_call (glBindBuffer p)
    (do_call (glGenBuffers p)
    (do_call (glBindVertexArray a)
    (do_call (glGenVertexArrays a) w))))))))))))).

(** The material name that line 115 resolves for a shape, and whether the
    loop keeps the shape. *)
Definition resolved_name (M : list material_t) (shape : shape_t) : option string :=
  material_name M (first_material_id shape).

(** The policy "a shape is dropped exactly when its name is in
    [shape_names] or its resolved material name is in [mat_names]". *)
Definition exclusion_policy `{Stbi} (shape_names mat_names : list string) : Prop :=
  ∀ A M shape w w' matName,
    load_shape A M shape w = Ret tt w' ->
    resolved_name M shape = Some matName ->
    (meshes w' = meshes w ↔ name shape ∈ shape_names ∨ matName ∈ mat_names).

(** One expanded vertex: a position and a texture coordinate. *)
Record VertexRec := {
  r_x : float; r_y : float; r_z : float;
  r_u : float; r_v : float
}.

Definition flatP (rs : list VertexRec) : list float :=
  flat_map (λ r, [r_x r; r_y r; r_z r]) rs.
Definition flatUV (rs : list VertexRec) : list float :=
  flat_map (λ r, [r_u r; r_v r]) rs.

(** What the source prescribes for the record of an index triple. *)
Definition position_of (A : attrib_t) (idx : index_t) (r : VertexRec) : Prop :=
  at_int (vertices A) 3 (vertex_index idx) 0 = Some (r_x r) ∧
  at_int (vertices A) 3 (vertex_index idx) 1 = Some (r_y r) ∧
  at_int (vertices A) 3 (vertex_index idx) 2 = Some (r_z r).

Definition texcoord_of (A : attrib_t) (idx : index_t) (r : VertexRec) : Prop :=
  (0 <= texcoord_index idx ∧
   ∃ v, at_int (texcoords A) 2 (texcoord_index idx) 0 = Some (r_u r) ∧
        at_int (texcoords A) 2 (texcoord_index idx) 1 = Some v ∧
        r_v r = F32.sub F32.one v) ∨
  (texcoord_index idx < 0 ∧ r_u r = F32.zero ∧ r_v r = F32.zero).

Definition vertex_rel (A : attrib_t) (idx : index_t) (r : VertexRec) : Prop :=
  position_of A idx r ∧ texcoord_of A idx r.

(** The number of vertices of a shape: the sum of its face sizes. *)
Definition vertex_count (fvs : list nat) : nat := foldr Nat.add 0%nat fvs.

(** Every face size is one that line 137 reads into [int fv] unchanged. *)
Definition int_sized (fvs : list nat) : Prop :=
  Forall (λ fv, Z.of_nat fv < 2 ^ 31) fvs.

(** The data that the buffers of mesh [m] hold in world [w]. *)
Definition stored (w : World) (m : Mesh) (P UV : list float) : Prop :=
  buffers (gl w) !! vboPos m = Some P ∧ buffers (gl w) !! vboUV m = Some UV.

(** ** The frame *)

(** The calls of [drawMesh], in order. *)
Definition draw_calls (m : Mesh) : list GLCall :=
  [glUniform1i U_useTexture (if hasTex m then 1 else 0);
   glUniform3fv U_baseColor (kd m);
   glUniform1f U_opacity (opacity m)] ++
  (if hasTex m then [glActiveTexture0; glBindTexture (tex m)] else []) ++
  [glBindVertexArray (vao m); glDrawArrays_TRIANGLES 0 (verts m)].

(** The calls of one pass over the meshes. *)
Definition pass_calls (b : bool) (ms : list Mesh) : list GLCall :=
  flat_map draw_calls (List.filter (λ m, eqb (transparent m) b) ms).

(** The world after a sequence of OpenGL calls. *)
Definition apply_calls (cs : list GLCall) (w : World) : World :=
  fold_left (λ w c, do_call c w) cs w.

(** The matrix that line 222 computes from the angles and the aspect. *)
Definition MVP_of `{Glm} (asp angleX angleY : float) : mat4 :=
  mat4_mul (mat4_mul (projection_matrix asp) view_matrix) (model_matrix angleX angleY).

(** The OpenGL calls of one frame, for the scene [ms]. *)
Definition frame_calls (mvp : mat4) (ms : list Mesh) : list GLCall :=
  [glClear_COLOR_DEPTH; glUniformMatrix4fv U_MVP mvp] ++
  pass_calls false ms ++ [glDepthMask false] ++
  pass_calls true ms ++ [glDepthMask true].

(** The draw [d] is the draw of mesh [m], with depth writes [dw] and the
    matrix [mvp]. *)
Definition draws_mesh (dw : bool) (mvp : mat4) (m : Mesh) (d : Draw) : Prop :=
  d_vao d = vao m ∧ d_count d = verts m ∧ d_depth_write d = dw ∧
  d_useTexture d = (if hasTex m then 1 else 0) ∧
  (hasTex m = true -> d_texture d = tex m) ∧
  d_baseColor d = kd m ∧ d_opacity d = opacity m ∧ d_MVP d = mvp.

(** The flag of a mesh agrees with its opacity. *)
Definition flag_ok (m : Mesh) : Prop :=
  transparent m = F32.ltb (opacity m) F32.c0_999f.

(** A world in which a frame can start: depth writes are on and the flags
    of the scene agree with the opacities. *)
Definition frame_ready (w : World) : Prop :=
  depth_writemask (gl w) = true ∧ Forall flag_ok (meshes w).

(** The elapsed time that line 215 computes. *)
Definition elapsed (prev cur : float) : float := F32.of_double (F64.sub cur prev).

(** The world after one frame: the angles are integrated, the calls of the
    frame are made, the buffers are swapped and the callbacks of the
    pending events run. *)
Definition after_frame `{Glm} (prev : float) (inp : FrameInput) (w : World) : World :=
  let dt := elapsed prev (fi_time inp) in
  let w1 := set_ay (F32.add (ay w) (F32.mul (sy w) dt))
              (set_ax (F32.add (ax w) (F32.mul (sx w) dt)) w) in
  run (run_callbacks (fi_events inp))
    (log E_glfwPollEvents
      (log E_glfwSwapBuffers
        (apply_calls (frame_calls (MVP_of (aspect w1) (ax w1) (ay w1)) (meshes w1)) w1))).

(** The context after a sequence of calls. *)
Definition gl_run (cs : list GLCall) (g : GL) : GL :=
  fold_left (λ g c, gl_exec c g) cs g.

Definition is_matrix_upload (c : GLCall) : bool :=
  match c with
  | glUniformMatrix4fv _ _ => true
  | _ => false
  end.


(** ** Well-formed input

    What the loops of [loadOBJ] need from the parser for their vector
    accesses to stay in range. *)

(** The position of an index triple is in the pool (and its offsets fit
    [int]); its texture coordinate is in the pool or absent. *)
Definition index_ok (A : attrib_t) (idx : index_t) : bool :=
  (0 <=? vertex_index idx) &&
  (3 * vertex_index idx + 2 <? Z.of_nat (length (vertices A))) &&
  (3 * vertex_index idx + 2 <? 2 ^ 31) &&
  ((texcoord_index idx <? 0) ||
   ((2 * texcoord_index idx + 1 <? Z.of_nat (length (texcoords A))) &&
    (2 * texcoord_index idx + 1 <? 2 ^ 31))).

(** The faces of a mesh are covered by its index list, and the indices
    they use are in range. *)
Definition faces_ok (A : attrib_t) (ms : mesh_t) : bool :=
  (vertex_count (num_face_vertices ms) <=? length (indices ms))%nat &&
  forallb (index_ok A) (take (vertex_count (num_face_vertices ms)) (indices ms)).

(** The material of the first face exists, and the faces are in range
    unless the shape is skipped. *)
Definition shape_ok (A : attrib_t) (M : list material_t) (shape : shape_t) : bool :=
  match resolved_name M shape with
  | Some matName => skipped shape matName || faces_ok A (mesh shape)
  | None => false
  end.

(** The shapes that the loop keeps. *)
Definition retained (M : list material_t) (shape : shape_t) : bool :=
  match resolved_name M shape with
  | Some matName => negb (skipped shape matName)
  | None => false
  end.

(** The material that lines 124-125 select for a shape, if any. *)
Definition shape_material (M : list material_t) (shape : shape_t) : option material_t :=
  if 0 <=? first_material_id shape then material_at M (first_material_id shape) else None.


(** ** Names of OpenGL objects *)

(** The buffer and vertex array names of the scene are positive, below the
    counters of the context, and no name is used twice. *)
Definition names_ok (w : World) : Prop :=
  1 <= next_buffer (gl w) ∧ 1 <= next_vertex_array (gl w) ∧
  Forall (λ m, 1 <= vao m < next_vertex_array (gl w) ∧
               1 <= vboPos m < next_buffer (gl w) ∧
               1 <= vboUV m < next_buffer (gl w)) (meshes w) ∧
  NoDup (map vao (meshes w)) ∧
  NoDup (flat_map (λ m, [vboPos m; vboUV m]) (meshes w)).

(** Every mesh of the scene has its data in its buffers: one position
    record and one uv record per vertex. *)
Definition scene_stored (w : World) : Prop :=
  Forall (λ m, ∃ rs, stored w m (flatP rs) (flatUV rs) ∧
                     verts m = to_GLsizei (Z.of_nat (length rs))) (meshes w).

(** The handles of the cache are generated names (so never 0), and two
    paths never share a handle. *)
Definition handles_ok (w : World) : Prop :=
  1 <= next_texture (gl w) ∧
  (∀ f id, texCache w !! f = Some id -> 1 <= id < next_texture (gl w)) ∧
  (∀ f g id, texCache w !! f = Some id -> texCache w !! g = Some id -> f = g).

(** The rates that the key callback can set. *)
Definition rate_ok (x : float) : Prop :=
  x = F32.zero ∨ x = F32.c1_5f ∨ x = F32.neg F32.c1_5f.

(** The clock after a list of frames: the time of the last one. *)
Definition last_time (t0 : float) (inps : list FrameInput) : float :=
  fold_left (λ _ inp, fi_time inp) inps t0.

(** The angle after a list of frames at the rates [rates] (one per frame):
    line 216, frame after frame. *)
Fixpoint integrate (angle prev : float) (steps : list (float * float)) : float :=
  match steps with
  | [] => angle
  | (rate, cur) :: steps' =>
      integrate (F32.add angle (F32.mul rate (elapsed prev cur))) cur steps'
  end.

Definition is_resize (cb : Callback) : bool :=
  match cb with
  | CB_resize _ _ => true
  | CB_key _ _ => false
  end.

(** A frame during which no key event arrives. *)
Definition no_key_events (inp : FrameInput) : Prop :=
  forallb is_resize (fi_events inp) = true.


(** The texture handle of a mesh is 0 or a handle of the cache, and it is
    0 when the mesh has no texture. *)
Definition mesh_tex_ok (w : World) (m : Mesh) : Prop :=
  (hasTex m = false -> tex m = 0) ∧
  (tex m ≠ 0 -> ∃ f, texCache w !! f = Some (tex m)).

(** A path that decodes has been decoded once if it is in the cache and
    not at all otherwise. *)
Definition decodes_counted `{Stbi} (w : World) : Prop :=
  ∀ f, is_Some (stbi_load f) ->
    decode_attempts f (trace w) =
      match texCache w !! f with Some _ => 1%nat | None => 0%nat end.

(** Only paths that decode are in the cache. *)
Definition cache_sound `{Stbi} (w : World) : Prop :=
  ∀ f id, texCache w !! f = Some id -> is_Some (stbi_load f).

(** The texture path of the material of a shape; empty without one. *)
Definition shape_texname (M : list material_t) (shape : shape_t) : string :=
  from_option diffuse_texname "" (shape_material M shape).

(** The texture of mesh [m] is the one that the cache of [w] holds for the
    texture path of [shape]: no texture without a path; with a path the
    flag is set, and the handle is the cached one if the path decodes and
    0 if it does not. *)
Definition mesh_texture_of `{Stbi} (w : World) (M : list material_t)
    (shape : shape_t) (m : Mesh) : Prop :=
  if String.eqb (shape_texname M shape) "" then hasTex m = false ∧ tex m = 0
  else hasTex m = true ∧
       match stbi_load (shape_texname M shape) with
       | Some _ => texCache w !! shape_texname M shape = Some (tex m) ∧ tex m ≠ 0
       | None => tex m = 0
       end.

(** What the import leaves alone: the angles, the rates, the aspect, the
    draws made so far and the state that the frame sets. *)
Definition same_frame_state (w w' : World) : Prop :=
  ax w' = ax w ∧ ay w' = ay w ∧ sx w' = sx w ∧ sy w' = sy w ∧ aspect w' = aspect w ∧
  drawn (gl w') = drawn (gl w) ∧ depth_writemask (gl w') = depth_writemask (gl w) ∧
  u_MVP (gl w') = u_MVP (gl w) ∧ u_useTexture (gl w') = u_useTexture (gl w) ∧
  u_baseColor (gl w') = u_baseColor (gl w) ∧ u_opacity (gl w') = u_opacity (gl w).

Definition is_draw_or_state (e : Event) : bool :=
  match e with
  | E_gl (glDrawArrays_TRIANGLES _ _) => true
  | E_gl (glDepthMask _) => true
  | E_gl (glUniform1i _ _) => true
  | E_gl (glUniform3fv _ _) => true
  | E_gl (glUniform1f _ _) => true
  | E_gl (glUniformMatrix4fv _ _) => true
  | E_gl glClear_COLOR_DEPTH => true
  | E_glfwSwapBuffers => true
  | _ => false
  end.

(** The aspect that line 181 computes for a framebuffer of [w] by [h]. *)
Definition aspect_of (w h : Z) : float :=
  if h =? 0 then F32.one else F32.div (F32.of_Z w) (F32.of_Z h).

(** The aspect after a list of events: that of the last resize, if any. *)
Definition aspect_after (cbs : list Callback) (a : float) : float :=
  fold_left (λ a cb, match cb with CB_resize w h => aspect_of w h | CB_key _ _ => a end)
    cbs a.

(** The trace of [w'] extends that of [w] by events that neither draw nor
    set the state of a draw. *)
Definition extends_without_draws (w w' : World) : Prop :=
  ∃ evs, trace w' = trace w ++ evs ∧ Forall (λ e, is_draw_or_state e = false) evs.

(** * Reasoning about programs *)

Ltac prog_unfold :=
  unfold mbind, mret, Prog_bind, Prog_ret, get, modify, emit, call, exit, undef, lift,
    gen_texture, gen_buffer, gen_vertex_array in *.

Section Preserves.
Context (I : World -> Prop).

Lemma preserves_ret {A} (a : A) : preserves I (mret a).
Proof. intros w Hw w' [= <-]. exact Hw. Qed.

Lemma preserves_bind {A B} (m : Prog A) (k : A -> Prog B) :
  preserves I m -> (∀ a, preserves I (k a)) -> preserves I (m ≫= k).
Proof.
  intros Hm Hk w Hw w'. unfold mbind, Prog_bind.
  specialize (Hm w Hw). destruct (m w) as [a w1|c w1|]; cbn in *.
  - apply Hk. apply Hm. reflexivity.
  - intros [= <-]. apply Hm. reflexivity.
  - discriminate.
Qed.

Lemma preserves_get : preserves I get.
Proof. intros w Hw w' [= <-]. exact Hw. Qed.

Lemma preserves_modify (g : World -> World) :
  (∀ w, I w -> I (g w)) -> preserves I (modify g).
Proof. intros Hg w Hw w' [= <-]. apply Hg, Hw. Qed.

Lemma preserves_exit {A} c : preserves I (exit (A := A) c).
Proof. intros w Hw w' [= <-]. exact Hw. Qed.

Lemma preserves_lift {A} (o : option A) : preserves I (lift o).
Proof. destruct o; intros w Hw w'; cbn; [intros [= <-]; exact Hw|discriminate]. Qed.

End Preserves.

(** ** [loadTex], case by case *)

Section LoadTex.
Context {stbi : Stbi}.

Lemma loadTex_hit f id w : texCache w !! f = Some id -> loadTex f w = Ret id w.
Proof. intros H. unfold loadTex. prog_unfold. rewrite H. reflexivity. Qed.

Lemma loadTex_fail f w :
  texCache w !! f = None -> stbi_load f = None ->
  loadTex f w = Ret 0 (after_failed_load f w).
Proof. intros H1 H2. unfold loadTex. prog_unfold. cbn. rewrite H1, H2. reflexivity. Qed.

Lemma loadTex_ok f d w :
  texCache w !! f = None -> stbi_load f = Some d ->
  loadTex f w = Ret (next_texture (gl w)) (after_upload f d w).
Proof. intros H1 H2. unfold loadTex. prog_unfold. cbn. rewrite H1, H2. reflexivity. Qed.

Lemma loadTex_cases f w : ∃ id w', loadTex f w = Ret id w' ∧ loadTex_case f w id w'.
Proof.
  destruct (texCache w !! f) as [id|] eqn:Hc.
  { exists id, w. split; [by apply loadTex_hit|by constructor]. }
  destruct (stbi_load f) as [d|] eqn:Hd.
  - eexists _, _. split; [by apply loadTex_ok|by econstructor].
  - eexists _, _. split; [by apply loadTex_fail|by constructor].
Qed.

End LoadTex.

(** ** Invariants of the whole program *)

Lemma neutral_step_silent w w' :
  texCache w' = texCache w -> trace w' = trace w -> neutral_step w w'.
Proof. intros H1 H2. split; [done|]. exists []. rewrite app_nil_r. done. Qed.

Lemma neutral_step_event w w' e :
  texCache w' = texCache w -> trace w' = trace w ++ [e] -> texture_silent e = true ->
  neutral_step w w'.
Proof. intros H1 H2 H3. split; [done|]. exists [e]. split; [done|]. by constructor. Qed.

Section WholeProgram.
Context {glm : Glm} {stbi : Stbi} {tinyobj : TinyObj}.
Context (I : World -> Prop).
Hypothesis I_respects : respects I.
Hypothesis I_loadTex : ∀ f, preserves I (loadTex f).

Lemma preserves_emit e : texture_silent e = true -> preserves I (emit e).
Proof.
  intros He. apply preserves_modify. intros w. apply I_respects.
  by apply (neutral_step_event _ _ e).
Qed.

Lemma preserves_call c : texture_silent (E_gl c) = true -> preserves I (call c).
Proof.
  intros He. apply preserves_modify. intros w. apply I_respects.
  by apply (neutral_step_event _ _ (E_gl c)).
Qed.

Lemma preserves_quiet (g : World -> World) :
  (∀ w, texCache (g w) = texCache w) -> (∀ w, trace (g w) = trace w) ->
  preserves I (modify g).
Proof.
  intros H1 H2. apply preserves_modify. intros w. apply I_respects.
  by apply neutral_step_silent.
Qed.

Ltac pres_step :=
  lazymatch goal with
  | |- preserves _ (mbind _ _) => apply preserves_bind; [|intros ?]
  | |- preserves _ (mret _) => apply preserves_ret
  | |- preserves _ get => apply preserves_get
  | |- preserves _ (lift _) => apply preserves_lift
  | |- preserves _ (exit _) => apply preserves_exit
  | |- preserves _ (loadTex _) => apply I_loadTex
  | |- preserves _ (emit _) => apply preserves_emit; reflexivity
  | |- preserves _ (call _) => apply preserves_call; reflexivity
  | |- preserves _ (modify _) => apply preserves_quiet; reflexivity
  end.
Ltac pres := repeat pres_step.

Lemma preserves_gen_buffer : preserves I gen_buffer.
Proof. unfold gen_buffer. pres. Qed.

Lemma preserves_gen_vertex_array : preserves I gen_vertex_array.
Proof. unfold gen_vertex_array. pres. Qed.

Lemma preserves_upload m P UV : preserves I (upload m P UV).
Proof.
  unfold upload. pres; try apply preserves_gen_buffer; try apply preserves_gen_vertex_array.
Qed.

Lemma preserves_resolve_material M mid : preserves I (resolve_material M mid).
Proof.
  unfold resolve_material. destruct (0 <=? mid); pres.
  destruct (negb _); pres.
Qed.

Lemma preserves_load_shape A M shape : preserves I (load_shape A M shape).
Proof.
  unfold load_shape. pres. destruct (skipped _ _); pres.
  - apply preserves_resolve_material.
  - apply preserves_upload.
Qed.

Lemma preserves_load_shapes A M S : preserves I (load_shapes A M S).
Proof.
  induction S as [|shape S IH]; cbn [load_shapes]; pres; [apply preserves_load_shape|exact IH].
Qed.

Lemma preserves_loadOBJ file base : preserves I (loadOBJ file base).
Proof.
  unfold loadOBJ. destruct (LoadObj file base) as [p|[warn err]]; pres.
  apply preserves_load_shapes.
Qed.

Lemma preserves_keyCB k a : preserves I (keyCB k a).
Proof. destruct k, a; cbn [keyCB]; pres. Qed.

Lemma preserves_resizeCB w h : preserves I (resizeCB w h).
Proof. unfold resizeCB. pres. Qed.

Lemma preserves_run_callbacks cbs : preserves I (run_callbacks cbs).
Proof.
  induction cbs as [|[k a|w h] cbs IH]; cbn [run_callbacks run_callback]; pres;
    auto using preserves_keyCB, preserves_resizeCB.
Qed.

Lemma preserves_drawMesh m : preserves I (drawMesh m).
Proof. unfold drawMesh. pres. destruct (hasTex m); pres. Qed.

Lemma preserves_draw_pass b ms : preserves I (draw_pass b ms).
Proof.
  induction ms as [|m ms IH]; cbn [draw_pass]; pres; [|exact IH].
  destruct (eqb _ _); pres. apply preserves_drawMesh.
Qed.

Lemma preserves_frame prev inp : preserves I (frame prev inp).
Proof.
  unfold frame, glfwPollEvents. pres;
    auto using preserves_draw_pass, preserves_run_callbacks.
Qed.

Lemma preserves_frames prev inps : preserves I (frames prev inps).
Proof.
  revert prev. induction inps as [|inp inps IH]; intros prev; cbn [frames]; pres.
  - apply preserves_frame.
  - apply IH.
Qed.

Lemma preserves_main t0 inps : preserves I (main_from_load t0 inps).
Proof.
  unfold main_from_load. pres;
    auto using preserves_loadOBJ, preserves_resizeCB, preserves_frames.
Qed.

End WholeProgram.

(** ** The texture cache: uploads and decode attempts *)

Lemma scan_app_silent t evs :
  Forall (λ e, texture_silent e = true) evs -> scan (t ++ evs) = scan t.
Proof.
  intros H. unfold scan. rewrite fold_left_app.
  generalize (fold_left attribute t (None, [])).
  induction H as [|e evs He _ IH]; intros st; [done|].
  cbn [fold_left]. replace (attribute st e) with st; [apply IH|].
  destruct e as [| | |c| |]; try done. destruct c; done.
Qed.

Lemma scan_snoc t e : scan (t ++ [e]) = attribute (scan t) e.
Proof. unfold scan. by rewrite fold_left_app. Qed.

Section Cache.
Context {stbi : Stbi}.

Lemma uploads_inv_respects : respects uploads_inv.
Proof.
  intros w w' [Hc (evs & Ht & Hs)] [Hnd Hin]. unfold uploads_inv, uploaded_paths in *.
  fold (scan (trace w')). fold (scan (trace w)) in Hnd, Hin.
  rewrite Ht, (scan_app_silent _ _ Hs), Hc. done.
Qed.

Lemma uploaded_paths_failed f w :
  uploaded_paths (trace (after_failed_load f w)) = uploaded_paths (trace w).
Proof.
  unfold uploaded_paths. fold (scan (trace (after_failed_load f w))). fold (scan (trace w)).
  cbn [after_failed_load log trace]. by rewrite !scan_snoc.
Qed.

Lemma uploaded_paths_upload f d w :
  uploaded_paths (trace (after_upload f d w)) = uploaded_paths (trace w) ++ [Some f].
Proof.
  unfold uploaded_paths. fold (scan (trace (after_upload f d w))). fold (scan (trace w)).
  cbn [after_upload log set_texCache do_call set_gl trace]. by rewrite !scan_snoc.
Qed.

Lemma uploads_inv_loadTex f : preserves uploads_inv (loadTex f).
Proof.
  intros w [Hnd Hin] w' Hw'.
  destruct (loadTex_cases f w) as (id & w1 & E & Hcase). rewrite E in Hw'.
  injection Hw' as <-. destruct Hcase as [id Hc|Hc Hd|d Hc Hd].
  - done.
  - split; rewrite uploaded_paths_failed; done.
  - split; rewrite uploaded_paths_upload.
    + apply NoDup_app. split; [done|]. split; [|apply NoDup_singleton].
      intros o Ho ->%list_elem_of_singleton.
      destruct (Hin _ Ho) as (g & [= <-] & [x Hx] & _). congruence.
    + intros o [Ho| ->%list_elem_of_singleton]%elem_of_app.
      * destruct (Hin _ Ho) as (g & -> & Hg & Hdg). exists g. split; [done|]. split; [|done].
        cbn. destruct (decide (f = g)) as [->|Hne];
          [rewrite lookup_insert_eq|rewrite lookup_insert_ne]; done.
      * exists f. split; [done|]. cbn. rewrite lookup_insert_eq, Hd. done.
Qed.

Lemma cached_respects f id : respects (cached f id).
Proof. intros w w' [Hc _] H. unfold cached. by rewrite Hc. Qed.

Lemma cached_loadTex f id g : preserves (cached f id) (loadTex g).
Proof.
  intros w H w' Hw'.
  destruct (loadTex_cases g w) as (id' & w1 & E & Hcase). rewrite E in Hw'.
  injection Hw' as <-. destruct Hcase as [id1 Hc|Hc Hd|d Hc Hd]; try done.
  unfold cached in *. cbn. rewrite lookup_insert_ne; [done|]. intros ->. congruence.
Qed.

Lemma decode_attempts_app f t1 t2 :
  decode_attempts f (t1 ++ t2) = (decode_attempts f t1 + decode_attempts f t2)%nat.
Proof. unfold decode_attempts. by rewrite List.filter_app, length_app. Qed.

Lemma decode_attempts_failed f w :
  decode_attempts f (trace (after_failed_load f w)) = S (decode_attempts f (trace w)).
Proof.
  cbn [after_failed_load log trace]. rewrite <- app_assoc, decode_attempts_app.
  unfold decode_attempts at 2. cbn. rewrite String.eqb_refl. cbn. apply Nat.add_1_r.
Qed.

Lemma decode_attempts_upload f d w :
  decode_attempts f (trace (after_upload f d w)) = S (decode_attempts f (trace w)).
Proof.
  cbn [after_upload log set_texCache do_call set_gl trace].
  rewrite <- !app_assoc, decode_attempts_app.
  unfold decode_attempts at 2. cbn. rewrite String.eqb_refl. cbn. apply Nat.add_1_r.
Qed.

End Cache.

(** * The texture cache (claims C5 and C9) *)

Lemma loadTex_twice `{Stbi} f w :
  ∃ id w1, loadTex f w = Ret id w1 ∧ ∃ w2, loadTex f w1 = Ret id w2.
Proof.
  destruct (loadTex_cases f w) as (id & w1 & E & Hcase). exists id, w1. split; [done|].
  destruct Hcase as [id Hc|Hc Hd|d Hc Hd].
  - exists w. by apply loadTex_hit.
  - eexists. by apply loadTex_fail.
  - eexists. apply loadTex_hit. cbn. by rewrite lookup_insert_eq.
Qed.

Lemma loadTex_success_cached `{Stbi} f w id w1 :
  loadTex f w = Ret id w1 ->
  is_Some (texCache w !! f) ∨ is_Some (stbi_load f) -> cached f id w1.
Proof.
  intros E Hs. destruct (loadTex_cases f w) as (id' & w1' & E' & Hcase).
  rewrite E in E'. injection E' as <- <-.
  destruct Hcase as [id Hc|Hc Hd|d Hc Hd].
  - done.
  - rewrite Hc, Hd in Hs. destruct Hs as [[? [=]]|[? [=]]].
  - unfold cached. cbn. by rewrite lookup_insert_eq.
Qed.

(** C5. Two calls of [loadTex] on one path return the same handle.  Once a
    path has resolved successfully it is in the cache, it stays there for
    the rest of the import and through every frame, and a call on a cached
    path returns the handle and leaves the world as it is: nothing is
    decoded, nothing allocated, nothing uploaded.  Over the whole run of
    the program from its initial state the uploads belong to pairwise
    different paths, each of them decodable and cached. *)
Theorem loadTex_same_handle_one_upload {glm : Glm} {stbi : Stbi} {tinyobj : TinyObj} :
  (∀ f w, ∃ id w1, loadTex f w = Ret id w1 ∧ ∃ w2, loadTex f w1 = Ret id w2) ∧
  (∀ f w id w1, loadTex f w = Ret id w1 ->
     is_Some (texCache w !! f) ∨ is_Some (stbi_load f) -> cached f id w1) ∧
  (∀ f id w, cached f id w -> loadTex f w = Ret id w) ∧
  (∀ f id A M S, preserves (cached f id) (load_shapes A M S)) ∧
  (∀ f id prev inps, preserves (cached f id) (frames prev inps)) ∧
  (∀ t0 inps w, final (main_from_load t0 inps World_init) = Some w ->
     NoDup (uploaded_paths (trace w)) ∧
     ∀ o, o ∈ uploaded_paths (trace w) ->
       ∃ f, o = Some f ∧ is_Some (texCache w !! f) ∧ is_Some (stbi_load f)).
Proof.
  split; [apply @loadTex_twice|].
  split; [apply @loadTex_success_cached|].
  split; [intros f id w; apply loadTex_hit|].
  split; [intros; apply preserves_load_shapes;
          [apply cached_respects|intros; apply cached_loadTex]|].
  split; [intros; apply preserves_frames; apply cached_respects|].
  intros t0 inps w Hw.
  apply (preserves_main uploads_inv uploads_inv_respects uploads_inv_loadTex t0 inps
           World_init); [|exact Hw].
  split; [apply NoDup_nil_2|]. intros o Ho. cbn in Ho. by apply elem_of_nil in Ho.
Qed.

Lemma loadTex_same_handle_one_upload_witness :
  let w1 := after_upload "glass.png"
              {| img_w := 1; img_h := 1; img_n := 3; img_data := [255; 255; 255] |}
              World_init in
  cached "glass.png" 1 w1 ∧ loadTex (stbi := stbi_glass) "glass.png" w1 = Ret 1 w1.
Proof.
  intros w1.
  destruct (@loadTex_same_handle_one_upload glm_fixed stbi_glass (tinyobj_of demo_scene))
    as (_ & H2 & H3 & _).
  assert (cached "glass.png" 1 w1) as Hc.
  { apply (H2 "glass.png" World_init); [reflexivity|].
    right. cbn. eexists. reflexivity. }
  split; [exact Hc|]. apply H3. exact Hc.
Defined.

(** C9, as the code has it.  Every call of [loadTex] attempts at most one
    decode of its path.  A failed decode returns 0 and is not remembered:
    the cache is unchanged, so each later call on the path attempts the
    decode again, and [n] calls in a row add [n] attempts. *)
Theorem loadTex_failure_not_cached {stbi : Stbi} (f : string) (w : World) :
  (∃ id w', loadTex f w = Ret id w' ∧
     (decode_attempts f (trace w') <= S (decode_attempts f (trace w)))%nat) ∧
  (texCache w !! f = None -> stbi_load f = None ->
   ∀ n, ∃ w', resolve_all (replicate n f) w = Ret (replicate n 0) w' ∧
     texCache w' = texCache w ∧
     decode_attempts f (trace w') = (decode_attempts f (trace w) + n)%nat).
Proof.
  split.
  - destruct (loadTex_cases f w) as (id & w' & E & Hcase). exists id, w'. split; [done|].
    destruct Hcase as [id Hc|Hc Hd|d Hc Hd].
    + apply Nat.le_succ_diag_r.
    + by rewrite decode_attempts_failed.
    + by rewrite decode_attempts_upload.
  - intros Hc Hd n. revert w Hc. induction n as [|n IH]; intros w Hc.
    + exists w. cbn. split; [done|]. split; [done|]. symmetry. apply Nat.add_0_r.
    + destruct (IH (after_failed_load f w) Hc) as (w' & E & Hc' & Hn).
      exists w'. cbn [replicate resolve_all]. unfold mbind, Prog_bind at 1.
      rewrite (loadTex_fail f w Hc Hd). unfold mbind, Prog_bind at 1. rewrite E.
      split; [done|]. split; [done|].
      rewrite Hn, decode_attempts_failed. symmetry. apply Nat.add_succ_r.
Qed.

Lemma loadTex_failure_not_cached_witness :
  ∃ w', resolve_all (H := stbi_none) (replicate 3 "missing.png") World_init
          = Ret (replicate 3 0) w' ∧
        texCache w' = texCache World_init ∧
        decode_attempts "missing.png" (trace w') = 3%nat.
Proof.
  destruct (@loadTex_failure_not_cached stbi_none "missing.png" World_init) as [_ H].
  apply (H eq_refl eq_refl 3%nat).
Defined.

(** C9 as stated fails: a second call on a path whose decode failed
    decodes again, both in isolation and in an import where two shapes
    share the failing texture. *)
Lemma loadTex_failure_is_retried :
  (decode_attempts "missing.png" ∘ trace) <$>
    final ((loadTex (stbi := stbi_none) "missing.png";;
            loadTex (stbi := stbi_none) "missing.png") World_init)
  = Some 2%nat ∧
  (decode_attempts "missing.png" ∘ trace) <$>
    final (main_from_load (glm := glm_fixed) (stbi := stbi_glass)
             (tinyobj := tinyobj_of twin_rocks) (F64.of_Z 0) [] World_init)
  = Some 2%nat.
Proof. split; vm_compute; reflexivity. Qed.

(** * The import *)

(** ** The face loops *)

Lemma push_vertex_spec A idx P UV P' UV' :
  push_vertex A idx (P, UV) = Some (P', UV') ->
  ∃ r, vertex_rel A idx r ∧ P' = P ++ flatP [r] ∧ UV' = UV ++ flatUV [r].
Proof.
  unfold push_vertex. intros H.
  destruct (at_int (vertices A) 3 (vertex_index idx) 0) as [x|] eqn:Ex; cbn [mbind option_bind] in H; [|done].
  destruct (at_int (vertices A) 3 (vertex_index idx) 1) as [y|] eqn:Ey; cbn [mbind option_bind] in H; [|done].
  destruct (at_int (vertices A) 3 (vertex_index idx) 2) as [z|] eqn:Ez; cbn [mbind option_bind] in H; [|done].
  cbn in H. destruct (Z.leb_spec 0 (texcoord_index idx)) as [Ht|Ht].
  - destruct (at_int (texcoords A) 2 (texcoord_index idx) 0) as [u|] eqn:Eu; cbn [mbind option_bind] in H; [|done].
    destruct (at_int (texcoords A) 2 (texcoord_index idx) 1) as [t|] eqn:Et; cbn [mbind option_bind] in H; [|done].
    cbn in H. injection H as <- <-.
    exists {| r_x := x; r_y := y; r_z := z; r_u := u; r_v := F32.sub F32.one t |}.
    repeat split; try done. left. split; [done|]. by exists t.
  - injection H as <- <-.
    exists {| r_x := x; r_y := y; r_z := z; r_u := F32.zero; r_v := F32.zero |}.
    repeat split; try done. by right.
Qed.

Lemma flatP_app r1 r2 : flatP (r1 ++ r2) = flatP r1 ++ flatP r2.
Proof. apply flat_map_app. Qed.
Lemma flatUV_app r1 r2 : flatUV (r1 ++ r2) = flatUV r1 ++ flatUV r2.
Proof. apply flat_map_app. Qed.

Lemma face_loop_spec A I off n : ∀ v P UV P' UV',
  face_loop A I off v n (P, UV) = Some (P', UV') ->
  ∃ rs, Forall2 (vertex_rel A) (take n (drop (off + v) I)) rs ∧ length rs = n ∧
        P' = P ++ flatP rs ∧ UV' = UV ++ flatUV rs.
Proof.
  induction n as [|n IH]; intros v P UV P' UV' H; cbn [face_loop] in H.
  - injection H as <- <-. exists []. rewrite take_0. cbn. rewrite !app_nil_r. repeat split. constructor.
  - destruct (I !! (off + v)%nat) as [idx|] eqn:Ei; cbn [mbind option_bind] in H; [|done].
    destruct (push_vertex A idx (P, UV)) as [[P1 UV1]|] eqn:Ep; cbn [mbind option_bind] in H; [|done].
    apply push_vertex_spec in Ep as (r & Hr & -> & ->).
    apply IH in H as (rs & Hrs & Hlen & -> & ->).
    exists (r :: rs). split; [|split; [cbn; by rewrite Hlen|]].
    + rewrite (drop_S _ _ _ Ei). cbn [take]. constructor; [done|].
      replace (S (off + v)) with (off + S v)%nat by lia. done.
    + by rewrite <- !app_assoc.
Qed.

Lemma faces_loop_spec A I fvs : ∀ off P UV P' UV',
  faces_loop A I fvs off (P, UV) = Some (P', UV') ->
  ∃ rs, Forall2 (vertex_rel A) (take (vertex_count fvs) (drop off I)) rs ∧
        length rs = vertex_count fvs ∧
        P' = P ++ flatP rs ∧ UV' = UV ++ flatUV rs.
Proof.
  induction fvs as [|fv fvs IH]; intros off P UV P' UV' H; cbn [faces_loop] in H.
  - injection H as <- <-. exists []. cbn. rewrite take_0, !app_nil_r. repeat split. constructor.
  - destruct (face_loop A I off 0 fv (P, UV)) as [[P1 UV1]|] eqn:Ef; cbn [mbind option_bind] in H; [|done].
    apply face_loop_spec in Ef as (r1 & Hr1 & Hl1 & -> & ->).
    apply IH in H as (r2 & Hr2 & Hl2 & -> & ->).
    exists (r1 ++ r2). cbn [vertex_count foldr]. fold (vertex_count fvs).
    split; [|split; [|split]].
    + rewrite Nat.add_0_r in Hr1.
      assert (length (take fv (drop off I)) = fv) as Hfv
        by (apply Forall2_length in Hr1; rewrite Hr1; exact Hl1).
      rewrite <- (take_drop fv (drop off I)).
      rewrite take_app_add'; [|done]. apply Forall2_app; [done|].
      rewrite drop_drop. done.
    + rewrite length_app. lia.
    + by rewrite flatP_app, <- !app_assoc.
    + by rewrite flatUV_app, <- !app_assoc.
Qed.

Lemma length_flatP rs : length (flatP rs) = (3 * length rs)%nat.
Proof. induction rs as [|r rs IH]; cbn; [done|]. unfold flatP in IH. rewrite IH. lia. Qed.

Lemma length_flatUV rs : length (flatUV rs) = (2 * length rs)%nat.
Proof. induction rs as [|r rs IH]; cbn; [done|]. unfold flatUV in IH. rewrite IH. lia. Qed.



(** ** One shape *)

Section Shape.
Context {stbi : Stbi}.

(** [loadTex] touches neither the meshes nor the buffers. *)
Lemma loadTex_frame f w t w1 :
  loadTex f w = Ret t w1 ->
  meshes w1 = meshes w ∧ buffers (gl w1) = buffers (gl w) ∧
  next_buffer (gl w1) = next_buffer (gl w) ∧
  next_vertex_array (gl w1) = next_vertex_array (gl w).
Proof.
  intros E. destruct (loadTex_cases f w) as (id & w' & E' & Hcase).
  rewrite E in E'. injection E' as <- <-. by destruct Hcase.
Qed.

Lemma resolve_material_inv M mid w m w1 :
  resolve_material M mid w = Ret m w1 ->
  (mid < 0 ∧ m = Mesh_default ∧ w1 = w) ∨
  (0 <= mid ∧ ∃ mat, material_at M mid = Some mat ∧
     ((diffuse_texname mat = "" ∧ m = with_material Mesh_default mat ∧ w1 = w) ∨
      (diffuse_texname mat ≠ "" ∧
       ∃ t, loadTex (diffuse_texname mat) w = Ret t w1 ∧
            m = with_texture (with_material Mesh_default mat) t))).
Proof.
  unfold resolve_material. destruct (Z.leb_spec 0 mid) as [Hm|Hm].
  - intros H. right. split; [done|]. unfold mbind, Prog_bind in H.
    destruct (material_at M mid) as [mat|] eqn:Em; cbn in H; [|done].
    exists mat. split; [done|].
    destruct (String.eqb_spec (diffuse_texname mat) "") as [He|He]; cbn in H.
    + injection H as <- <-. by left.
    + right. split; [done|].
      destruct (loadTex (diffuse_texname mat) w) as [t w2| |] eqn:Et; cbn in H; try done.
      injection H as <- <-. by exists t.
  - intros [= <- <-]. by left.
Qed.

Lemma resolve_material_frame M mid w m w1 :
  resolve_material M mid w = Ret m w1 ->
  meshes w1 = meshes w ∧ buffers (gl w1) = buffers (gl w) ∧
  next_buffer (gl w1) = next_buffer (gl w) ∧
  next_vertex_array (gl w1) = next_vertex_array (gl w).
Proof.
  intros [(_ & _ & ->)|(_ & mat & _ & [(_ & _ & ->)|(_ & t & Ht & _)])]%resolve_material_inv;
    try done.
  by apply loadTex_frame in Ht.
Qed.

Lemma load_shape_skipped A M shape w w' matName :
  load_shape A M shape w = Ret tt w' ->
  resolved_name M shape = Some matName -> skipped shape matName = true -> w' = w.
Proof.
  unfold load_shape, resolved_name. intros H Hn Hs. unfold mbind, Prog_bind in H.
  rewrite Hn in H. cbn in H. rewrite Hs in H. by injection H.
Qed.

Lemma load_shape_retained A M shape w w' matName :
  load_shape A M shape w = Ret tt w' ->
  resolved_name M shape = Some matName -> skipped shape matName = false ->
  ∃ m w1 rs,
    resolve_material M (first_material_id shape) w = Ret m w1 ∧
    Forall2 (vertex_rel A)
      (take (vertex_count (num_face_vertices (mesh shape))) (indices (mesh shape))) rs ∧
    length rs = vertex_count (num_face_vertices (mesh shape)) ∧
    w' = after_buffers m (flatP rs) (flatUV rs) w1.
Proof.
  unfold load_shape, resolved_name. intros H Hn Hs. unfold mbind, Prog_bind in H.
  rewrite Hn in H. cbn in H. rewrite Hs in H.
  destruct (resolve_material M (first_material_id shape) w) as [m w1| |] eqn:Er; try done.
  destruct (faces_loop A _ _ 0 ([], [])) as [[P UV]|] eqn:Ef; cbn in H; [|done].
  apply faces_loop_spec in Ef as (rs & Hrs & Hlen & -> & ->).
  exists m, w1, rs. split; [done|]. split; [done|]. split; [done|].
  cbn [app] in H. by injection H.
Qed.

(** A shape that the loop passes always resolves a material name. *)
Lemma load_shape_resolves A M shape w w' :
  load_shape A M shape w = Ret tt w' -> is_Some (resolved_name M shape).
Proof.
  unfold load_shape, resolved_name. intros H. unfold mbind, Prog_bind in H.
  destruct (material_name M (first_material_id shape)); [done|]. done.
Qed.

Lemma stored_after_buffers m P UV w :
  let w' := after_buffers m P UV w in
  ∃ m', meshes w' = meshes w ++ [m'] ∧ stored w' m' P UV ∧
    m' = with_buffers m (to_GLsizei (Z.of_nat (length P) / 3))
           (next_vertex_array (gl w)) (next_buffer (gl w)) (next_buffer (gl w) + 1).
Proof.
  intros w'. eexists. split; [reflexivity|]. split; [|reflexivity].
  split; cbn.
  - rewrite lookup_insert_ne by lia. apply lookup_insert_eq.
  - apply lookup_insert_eq.
Qed.

End Shape.

(** * Floats against the decimal 0.999 *)

Lemma digits2_pos_bounds (m : positive) :
  2 ^ (Zpos (digits2_pos m) - 1) <= Zpos m < 2 ^ Zpos (digits2_pos m).
Proof.
  induction m as [m IH|m IH|]; cbn [digits2_pos].
  - rewrite Pos2Z.inj_succ.
    replace (Z.succ (Zpos (digits2_pos m)) - 1) with (Zpos (digits2_pos m)) by lia.
    rewrite Z.pow_succ_r by lia.
    assert (2 ^ Z.pos (digits2_pos m) = 2 * 2 ^ (Z.pos (digits2_pos m) - 1)) as E.
    { rewrite <- Z.pow_succ_r by lia. f_equal. lia. }
    lia.
  - rewrite Pos2Z.inj_succ.
    replace (Z.succ (Zpos (digits2_pos m)) - 1) with (Zpos (digits2_pos m)) by lia.
    rewrite Z.pow_succ_r by lia.
    assert (2 ^ Z.pos (digits2_pos m) = 2 * 2 ^ (Z.pos (digits2_pos m) - 1)) as E.
    { rewrite <- Z.pow_succ_r by lia. f_equal. lia. }
    lia.
  - simpl. lia.
Qed.

Lemma compare_cont_Eq_spec (p q : positive) :
  CompareSpec (Z.pos p = Z.pos q) (Z.pos p < Z.pos q) (Z.pos q < Z.pos p)
    (Pos.compare_cont Eq p q).
Proof.
  pose proof (Pos.compare_spec p q) as H. unfold Pos.compare in H.
  destruct H as [->|H|H]; constructor; lia.
Qed.

(** A finite binary32 number has a mantissa below 2^24, an exponent between
    -149 and 104, and a mantissa of full width unless it is subnormal. *)
Lemma bounded32 m e :
  bounded 24 128 m e = true ->
  Zpos m < 2 ^ 24 ∧ -149 <= e <= 104 ∧ (-149 < e -> 2 ^ 23 <= Zpos m).
Proof.
  unfold bounded, canonical_mantissa, fexp, emin.
  intros H. apply andb_true_iff in H as [H1 H2].
  apply Z.eqb_eq in H1. apply Z.leb_le in H2.
  pose proof (digits2_pos_bounds m) as [Hlo Hhi].
  set (d := Zpos (digits2_pos m)) in *.
  assert (d <= 24) by lia.
  split.
  { eapply Z.lt_le_trans; [exact Hhi|]. apply Z.pow_le_mono_r; lia. }
  split; [lia|].
  intros He. assert (d = 24) as -> by lia. exact Hlo.
Qed.

(** The comparison with the literal [0.999f] decides the comparison of the
    real value with the decimal 0.999: no binary32 number lies between the
    two. *)
Lemma ltb_c0_999f_real x :
  F32.valid x = true ->
  (F32.ltb x F32.c0_999f = true <-> real_lt x 999 1000) ∧
  (real_ge x 999 1000 -> F32.ltb x F32.c0_999f = false).
Proof.
  unfold F32.valid, F32.ltb, F32.c0_999f, F32.prec, F32.emax.
  destruct x as [s|s| |s m e]; cbn [valid_binary].
  - intros _. cbn. split; [split; [lia|done]|lia].
  - intros _. destruct s; cbn; split; try split; try done.
  - intros _. cbn. split; [split|]; done.
  - intros Hb. apply bounded32 in Hb as (Hm & He & Hn).
    unfold SFltb, SFcompare, real_lt, real_ge.
    destruct s; cbn [cond_Zopp].
    + assert (0 < 2 ^ e ∨ e < 0) as Hp
        by (destruct (Z.le_gt_cases 0 e); [left; apply Z.pow_pos_nonneg; lia | right; lia]).
      assert (0 < 2 ^ (- e) ∨ 0 < e) as Hq
        by (destruct (Z.le_gt_cases e 0); [left; apply Z.pow_pos_nonneg; lia | right; lia]).
      destruct (Z.leb_spec 0 e); split; try split; try done; try nia.
    + destruct (Z.compare_spec e (-24)) as [->|Hlt|Hgt].
      * assert (999 * 2 ^ (- -24) = 16760438784) as -> by reflexivity.
        assert ((0 <=? -24) = false) as -> by reflexivity.
        destruct (compare_cont_Eq_spec m 16760439) as [Hl|Hl|Hl];
          split; try split; try done; try lia.
      * assert (2 ^ 25 <= 2 ^ (- e)) by (apply Z.pow_le_mono_r; lia).
        destruct (Z.leb_spec 0 e); [lia|].
        change (2 ^ 25) with 33554432 in *. change (2 ^ 24) with 16777216 in *.
        split; try split; try done; try lia.
      * specialize (Hn ltac:(lia)). change (2 ^ 23) with 8388608 in *.
        destruct (Z.leb_spec 0 e).
        -- assert (1 <= 2 ^ e) by (pose proof (Z.pow_pos_nonneg 2 e); lia).
           split; try split; try done; try nia.
        -- assert (2 ^ (- e) <= 2 ^ 23) by (apply Z.pow_le_mono_r; lia).
           change (2 ^ 23) with 8388608 in *.
           split; try split; try done; try nia.
Qed.

(** [c <= x] excludes [x < c], also for the special values. *)
Lemma leb_c0_999f_not_ltb x :
  F32.leb F32.c0_999f x = true -> F32.ltb x F32.c0_999f = false.
Proof.
  unfold F32.leb, F32.ltb, F32.c0_999f, SFleb, SFltb, SFcompare.
  destruct x as [s|s| |s m e]; try done.
  - by destruct s.
  - destruct s; [done|].
    destruct (Z.compare_spec e (-24)), (Z.compare_spec (-24) e); try lia; try done.
    destruct (compare_cont_Eq_spec m 16760439), (compare_cont_Eq_spec 16760439 m);
      try lia; try done.
Qed.

(** * Claims about the import *)

Section Importer.
Context {stbi : Stbi}.

(** C3, as the code has it.  The loop drops a shape exactly when the name
    of the shape is "Water" or the name of its resolved material (the
    material of its first face, the empty name when it has none) is
    "water"; the two tests are case-sensitive and each looks at one of the
    two names only. *)
Theorem dropped_iff_Water_or_water : exclusion_policy ["Water"] ["water"].
Proof.
  intros A M shape w w' matName H Hn.
  destruct (skipped shape matName) eqn:Hs.
  - rewrite (load_shape_skipped _ _ _ _ _ _ H Hn Hs). split; [intros _|done].
    unfold skipped in Hs. apply orb_true_iff in Hs as [Hs|Hs];
      apply String.eqb_eq in Hs; rewrite Hs; [left|right]; apply list_elem_of_singleton; done.
  - destruct (load_shape_retained _ _ _ _ _ _ H Hn Hs) as (m & w1 & rs & Hr & _ & _ & ->).
    destruct (stored_after_buffers m (flatP rs) (flatUV rs) w1) as (m' & Hm & _).
    apply resolve_material_frame in Hr as (Hms & _). rewrite Hm, Hms.
    split.
    + intros E. apply (f_equal length) in E. rewrite length_app in E. cbn in E. lia.
    + unfold skipped in Hs. apply orb_false_iff in Hs as [Hs1 Hs2].
      apply String.eqb_neq in Hs1, Hs2.
      intros [E%list_elem_of_singleton|E%list_elem_of_singleton]; done.
Qed.

(** C4. A retained shape with a material gets the dissolve of the material
    as its opacity, and its [transparent] flag is the float comparison
    [dissolve < 0.999f].  For a dissolve that is a binary32 number this is
    the comparison of the real value with the decimal 0.999: the flag is
    set exactly when the value is below 0.999 and clear when it is at least
    0.999; a dissolve equal to the literal leaves it clear. *)
Theorem transparent_iff_dissolve_below_0_999 A M shape w w' mat :
  load_shape A M shape w = Ret tt w' ->
  0 <= first_material_id shape ->
  material_at M (first_material_id shape) = Some mat ->
  skipped shape (mat_name mat) = false ->
  ∃ m, meshes w' = meshes w ++ [m] ∧
    opacity m = dissolve mat ∧
    transparent m = F32.ltb (dissolve mat) F32.c0_999f ∧
    (F32.valid (dissolve mat) = true ->
       (transparent m = true ↔ real_lt (dissolve mat) 999 1000) ∧
       (real_ge (dissolve mat) 999 1000 -> transparent m = false)) ∧
    (dissolve mat = F32.c0_999f -> transparent m = false).
Proof.
  intros H Hmid Hmat Hs.
  assert (resolved_name M shape = Some (mat_name mat)) as Hn.
  { unfold resolved_name, material_name. apply Z.leb_le in Hmid. rewrite Hmid, Hmat. done. }
  destruct (load_shape_retained _ _ _ _ _ _ H Hn Hs) as (m & w1 & rs & Hr & _ & _ & ->).
  destruct (stored_after_buffers m (flatP rs) (flatUV rs) w1) as (m' & Hm & _ & ->).
  pose proof (resolve_material_frame _ _ _ _ _ Hr) as (Hms & _).
  eexists. split; [by rewrite Hm, Hms|].
  assert (opacity m = dissolve mat ∧ transparent m = F32.ltb (dissolve mat) F32.c0_999f)
    as [Ho Ht].
  { apply resolve_material_inv in Hr
      as [(? & _)|(_ & mat' & Hmat' & [(_ & -> & _)|(_ & t & _ & ->)])]; [lia| |];
      rewrite Hmat in Hmat'; injection Hmat' as <-; done. }
  cbn. split; [done|]. split; [done|]. rewrite Ht. split.
  - apply ltb_c0_999f_real.
  - by intros ->.
Qed.

(** C6, as the code has it.  The buffers of the mesh of a retained shape
    hold as many position records (three floats each) as uv records (two
    floats each), one of each per expanded vertex.  The vertex count of
    the mesh is this number [n] cast to [GLsizei], which is [n] itself
    when [n] is below [2 ^ 31].  When every face size is below [2 ^ 31]
    (the sizes that line 137 reads into [int] unchanged), [n] is the sum
    of the face sizes.  It is a multiple of 3 when every face has three
    vertices. *)
Theorem stored_record_counts A M shape w w' matName :
  load_shape A M shape w = Ret tt w' ->
  resolved_name M shape = Some matName -> skipped shape matName = false ->
  ∃ m P UV n, meshes w' = meshes w ++ [m] ∧ stored w' m P UV ∧
    length P = (3 * n)%nat ∧ length UV = (2 * n)%nat ∧
    verts m = to_GLsizei (Z.of_nat n) ∧
    (Z.of_nat n < 2 ^ 31 -> verts m = Z.of_nat n) ∧
    (int_sized (num_face_vertices (mesh shape)) ->
     n = vertex_count (num_face_vertices (mesh shape))) ∧
    (Forall (λ fv, fv = 3%nat) (num_face_vertices (mesh shape)) ->
     ∃ k, n = (3 * k)%nat).
Proof.
  intros H Hn Hs.
  destruct (load_shape_retained _ _ _ _ _ _ H Hn Hs) as (m & w1 & rs & Hr & _ & Hlen & ->).
  destruct (stored_after_buffers m (flatP rs) (flatUV rs) w1) as (m' & Hm & Hst & ->).
  pose proof (resolve_material_frame _ _ _ _ _ Hr) as (Hms & _).
  eexists _, (flatP rs), (flatUV rs), (length rs).
  split; [by rewrite Hm, Hms|]. split; [done|].
  rewrite length_flatP, length_flatUV.
  split; [done|]. split; [done|].
  match goal with |- ?a = ?b ∧ _ => assert (a = b) as Hv end.
  { change (verts (with_buffers ?m ?n ?a ?p ?u)) with n.
    f_equal. rewrite Nat2Z.inj_mul.
    change (Z.of_nat 3) with 3. rewrite Z.mul_comm. apply Z.div_mul. done. }
  split; [exact Hv|]. split; [|split; [done|]].
  - intros Hsmall. rewrite Hv. unfold to_GLsizei.
    rewrite Z.mod_small; lia.
  - rewrite Hlen. generalize (num_face_vertices (mesh shape)).
    induction 1 as [|fv fvs -> _ [k IH]]; [by exists 0%nat|].
    exists (S k). cbn [vertex_count foldr]. fold (vertex_count fvs). lia.
Qed.


(** C10. The outcome of an iteration of the shape loop depends on
    [material_ids] through its first entry only: any two tails give the
    same world.  The mesh of a retained shape has the diffuse colour and
    the dissolve of the material of that first entry, and a texture flag
    that says whether that material names a texture; with no entry, or a
    negative first entry, the mesh is white, opaque and untextured. *)
Theorem material_of_first_face_only A M :
  (∀ nm I fvs m0 rest rest' w,
     load_shape A M {| name := nm; mesh := {| indices := I; num_face_vertices := fvs;
                                               material_ids := m0 :: rest |} |} w
     = load_shape A M {| name := nm; mesh := {| indices := I; num_face_vertices := fvs;
                                                 material_ids := m0 :: rest' |} |} w) ∧
  (∀ shape w w' matName,
     load_shape A M shape w = Ret tt w' ->
     resolved_name M shape = Some matName -> skipped shape matName = false ->
     ∃ m, meshes w' = meshes w ++ [m] ∧
       match material_ids (mesh shape) with
       | m0 :: _ =>
           if 0 <=? m0 then
             ∃ mat, material_at M m0 = Some mat ∧
               kd m = diffuse mat ∧ opacity m = dissolve mat ∧
               transparent m = F32.ltb (dissolve mat) F32.c0_999f ∧
               hasTex m = negb (String.eqb (diffuse_texname mat) "")
           else
             kd m = vec3_splat F32.one ∧ opacity m = F32.one ∧
             transparent m = false ∧ hasTex m = false ∧ tex m = 0
       | [] =>
           kd m = vec3_splat F32.one ∧ opacity m = F32.one ∧
           transparent m = false ∧ hasTex m = false ∧ tex m = 0
       end).
Proof.
  split; [reflexivity|].
  intros shape w w' matName H Hn Hs.
  destruct (load_shape_retained _ _ _ _ _ _ H Hn Hs) as (m & w1 & rs & Hr & _ & _ & ->).
  destruct (stored_after_buffers m (flatP rs) (flatUV rs) w1) as (m' & Hm & _ & ->).
  pose proof (resolve_material_frame _ _ _ _ _ Hr) as (Hms & _).
  eexists. split; [by rewrite Hm, Hms|].
  unfold first_material_id in Hr.
  destruct (material_ids (mesh shape)) as [|m0 rest].
  - apply resolve_material_inv in Hr as [(_ & -> & _)|(? & _)]; [done|lia].
  - destruct (Z.leb_spec 0 m0) as [Hm0|Hm0].
    + apply resolve_material_inv in Hr
        as [(? & _)|(_ & mat & Hmat & [(He & -> & _)|(He & t & _ & ->)])]; [lia| |];
        exists mat; cbn; repeat split; try done.
      * by rewrite He.
      * symmetry. apply negb_true_iff. by apply String.eqb_neq.
    + apply resolve_material_inv in Hr as [(_ & -> & _)|(? & _)]; [done|lia].
Qed.

(** C1, on the code.  When the texture of the material does not decode,
    [loadTex] returns 0, and the mesh is built all the same, but with
    [hasTex] set and the handle 0: the fallback to the base colour that the
    claim describes is not taken. *)
Theorem undecodable_texture_still_flagged A M shape w w' mat :
  load_shape A M shape w = Ret tt w' ->
  0 <= first_material_id shape ->
  material_at M (first_material_id shape) = Some mat ->
  skipped shape (mat_name mat) = false ->
  diffuse_texname mat ≠ "" ->
  texCache w !! diffuse_texname mat = None ->
  stbi_load (diffuse_texname mat) = None ->
  ∃ m, meshes w' = meshes w ++ [m] ∧ hasTex m = true ∧ tex m = 0 ∧ kd m = diffuse mat.
Proof.
  intros H Hmid Hmat Hs Hne Hc Hd.
  assert (resolved_name M shape = Some (mat_name mat)) as Hn.
  { unfold resolved_name, material_name. apply Z.leb_le in Hmid. rewrite Hmid, Hmat. done. }
  destruct (load_shape_retained _ _ _ _ _ _ H Hn Hs) as (m & w1 & rs & Hr & _ & _ & ->).
  destruct (stored_after_buffers m (flatP rs) (flatUV rs) w1) as (m' & Hm & _ & ->).
  pose proof (resolve_material_frame _ _ _ _ _ Hr) as (Hms & _).
  eexists. split; [by rewrite Hm, Hms|].
  apply resolve_material_inv in Hr
    as [(? & _)|(_ & mat' & Hmat' & [(He & _)|(_ & t & Ht & ->)])]; [lia| |];
    rewrite Hmat in Hmat'; injection Hmat' as <-; [done|].
  rewrite (loadTex_fail _ _ Hc Hd) in Ht. injection Ht as <- _. done.
Qed.

End Importer.

Lemma dropped_iff_Water_or_water_witness :
  meshes World_init = meshes World_init ↔ "Water" ∈ ["Water"] ∨ "water" ∈ ["water"].
Proof.
  apply (@dropped_iff_Water_or_water stbi_none demo_attrib demo_materials
           {| name := "Water"; mesh := triangle [1] |} World_init World_init "water");
    reflexivity.
Defined.

(** C3 as stated fails: the excluded names are not one set for both tests.
    A shape named "water" (lower case) without a material is kept. *)
Lemma shape_named_water_is_kept :
  ¬ exclusion_policy (H := stbi_none) ["Water"; "water"] ["Water"; "water"].
Proof.
  intros Hpol.
  specialize (Hpol demo_attrib [] lower_water World_init
                (run (load_shape (stbi := stbi_none) demo_attrib [] lower_water) World_init)
                "" eq_refl eq_refl).
  destruct Hpol as [_ Hpol].
  assert (name lower_water ∈ ["Water"; "water"]) as Hin
    by (apply list_elem_of_lookup; exists 1%nat; reflexivity).
  specialize (Hpol (or_introl Hin)). vm_compute in Hpol. discriminate Hpol.
Qed.

Lemma transparent_iff_dissolve_below_0_999_witness :
  ∃ m, meshes (run (load_shape (stbi := stbi_glass) demo_attrib demo_materials Glass)
                 World_init) = [] ++ [m] ∧
    opacity m = f32 1 2 ∧ transparent m = true.
Proof.
  destruct (@transparent_iff_dissolve_below_0_999 stbi_glass demo_attrib demo_materials
              Glass World_init
              (run (load_shape (stbi := stbi_glass) demo_attrib demo_materials Glass)
                 World_init)
              {| mat_name := "glass"; diffuse := Vec3 (f32 1 2) (f32 1 2) F32.one;
                 dissolve := f32 1 2; diffuse_texname := "glass.png" |})
    as (m & Hm & Ho & Ht & _); [reflexivity|vm_compute; discriminate|reflexivity|reflexivity|].
  exists m. split; [exact Hm|]. split; [exact Ho|]. rewrite Ht. reflexivity.
Defined.

Lemma stored_record_counts_witness :
  ∃ m P UV,
    meshes (run (load_shape (stbi := stbi_none) demo_attrib [] Quad) World_init) = [] ++ [m] ∧
    stored (run (load_shape (stbi := stbi_none) demo_attrib [] Quad) World_init) m P UV ∧
    length P = 12%nat ∧ length UV = 8%nat ∧ verts m = 4.
Proof.
  destruct (@stored_record_counts stbi_none demo_attrib [] Quad World_init
              (run (load_shape (stbi := stbi_none) demo_attrib [] Quad) World_init) "")
    as (m & P & UV & n & Hm & Hst & HP & HUV & _ & Hv & Hn & _);
    [reflexivity|reflexivity|reflexivity|].
  rewrite Hn in HP, HUV, Hv by (by repeat constructor).
  exists m, P, UV.
  repeat split; first [exact Hm|apply Hst|exact HP|exact HUV|by apply Hv].
Defined.

(** C6 as stated fails: a shape with one face of four vertices gets four
    position records and four uv records, and 4 is not a multiple of 3. *)
Lemma quad_is_not_whole_triangles :
  let w' := run (load_shape (stbi := stbi_none) demo_attrib [] Quad) World_init in
  map (λ m, (verts m, length <$> buffers (gl w') !! vboPos m,
             length <$> buffers (gl w') !! vboUV m)) (meshes w')
  = [(4, Some (3 * 4)%nat, Some (2 * 4)%nat)] ∧ 4 `mod` 3 ≠ 0.
Proof. split; [vm_compute; reflexivity|discriminate]. Qed.


Lemma material_of_first_face_only_witness :
  ∃ m, meshes (run (load_shape (stbi := stbi_glass) demo_attrib demo_materials Glass)
                 World_init) = [] ++ [m] ∧
       kd m = Vec3 (f32 1 2) (f32 1 2) F32.one ∧ hasTex m = true.
Proof.
  destruct (@material_of_first_face_only stbi_glass demo_attrib demo_materials) as [_ H].
  destruct (H Glass World_init
              (run (load_shape (stbi := stbi_glass) demo_attrib demo_materials Glass)
                 World_init) "glass")
    as (m & Hm & Hmat); [reflexivity|reflexivity|reflexivity|].
  cbn in Hmat. destruct Hmat as (mat & Emat & Hkd & _ & _ & Hht).
  injection Emat as <-. exists m. split; [exact Hm|]. split; [exact Hkd|exact Hht].
Defined.

Lemma undecodable_texture_still_flagged_witness :
  ∃ m, meshes (run (load_shape (stbi := stbi_none) demo_attrib demo_materials Rock)
                 World_init) = [] ++ [m] ∧
       hasTex m = true ∧ tex m = 0 ∧ kd m = vec3_splat (f32 1 4).
Proof.
  apply (@undecodable_texture_still_flagged stbi_none demo_attrib demo_materials Rock
           World_init
           (run (load_shape (stbi := stbi_none) demo_attrib demo_materials Rock) World_init)
           {| mat_name := "rock"; diffuse := vec3_splat (f32 1 4);
              dissolve := F32.c0_999f; diffuse_texname := "missing.png" |});
    [reflexivity|vm_compute; discriminate|reflexivity|reflexivity|discriminate
    |reflexivity|reflexivity].
Defined.

(** * The frame *)

Lemma apply_calls_app cs1 cs2 w :
  apply_calls (cs1 ++ cs2) w = apply_calls cs2 (apply_calls cs1 w).
Proof. apply fold_left_app. Qed.

Lemma drawMesh_eq m w : drawMesh m w = Ret tt (apply_calls (draw_calls m) w).
Proof. unfold drawMesh, draw_calls. destruct (hasTex m); reflexivity. Qed.

Lemma draw_pass_eq b ms w : draw_pass b ms w = Ret tt (apply_calls (pass_calls b ms) w).
Proof.
  revert w. induction ms as [|m ms IH]; intros w; [reflexivity|].
  cbn [draw_pass]. unfold mbind, Prog_bind, pass_calls. cbn [List.filter].
  destruct (eqb (transparent m) b).
  - rewrite drawMesh_eq. cbn [flat_map]. rewrite apply_calls_app. apply IH.
  - cbn. apply IH.
Qed.

Lemma run_callbacks_ret cbs w :
  run_callbacks cbs w = Ret tt (run (run_callbacks cbs) w).
Proof.
  revert w. induction cbs as [|cb cbs IH]; intros w; [reflexivity|].
  cbn [run_callbacks]. unfold run, mbind, Prog_bind.
  assert (∃ w1, run_callback cb w = Ret tt w1) as [w1 ->].
  { destruct cb as [k a|x y]; [destruct k, a|]; eexists; reflexivity. }
  rewrite IH. reflexivity.
Qed.

Section Frame.
Context {glm : Glm}.

Lemma frame_eq prev inp w : frame prev inp w = Ret (fi_time inp) (after_frame prev inp w).
Proof.
  unfold after_frame, frame_calls, MVP_of, elapsed. rewrite !apply_calls_app.
  unfold frame, glfwPollEvents.
  unfold mbind, Prog_bind, get, modify, call, emit. cbn -[apply_calls run pass_calls].
  rewrite draw_pass_eq. rewrite draw_pass_eq. rewrite run_callbacks_ret.
  reflexivity.
Qed.

(** ** What the calls do to the context *)

Lemma apply_calls_gl cs w : gl (apply_calls cs w) = gl_run cs (gl w).
Proof.
  revert w. induction cs as [|c cs IH]; intros w; [reflexivity|].
  cbn [apply_calls gl_run fold_left]. apply IH.
Qed.

Lemma apply_calls_trace cs w : trace (apply_calls cs w) = trace w ++ map E_gl cs.
Proof.
  revert w. induction cs as [|c cs IH]; intros w; cbn [apply_calls fold_left map].
  - by rewrite app_nil_r.
  - fold (apply_calls cs (do_call c w)). rewrite IH. cbn. by rewrite <- app_assoc.
Qed.

Lemma apply_calls_globals cs w :
  meshes (apply_calls cs w) = meshes w ∧ texCache (apply_calls cs w) = texCache w ∧
  ax (apply_calls cs w) = ax w ∧ ay (apply_calls cs w) = ay w ∧
  sx (apply_calls cs w) = sx w ∧ sy (apply_calls cs w) = sy w ∧
  aspect (apply_calls cs w) = aspect w.
Proof.
  revert w. induction cs as [|c cs IH]; intros w; [done|].
  cbn [apply_calls fold_left]. apply (IH (do_call c w)).
Qed.

Lemma gl_run_app cs1 cs2 g : gl_run (cs1 ++ cs2) g = gl_run cs2 (gl_run cs1 g).
Proof. apply fold_left_app. Qed.

Lemma gl_run_draw_calls m g :
  ∃ d, drawn (gl_run (draw_calls m) g) = drawn g ++ [d] ∧
       draws_mesh (depth_writemask g) (u_MVP g) m d ∧
       depth_writemask (gl_run (draw_calls m) g) = depth_writemask g ∧
       u_MVP (gl_run (draw_calls m) g) = u_MVP g.
Proof.
  unfold draw_calls. destruct (hasTex m) eqn:Ht; cbn; eexists;
    (split; [reflexivity|]); unfold draws_mesh; cbn; rewrite Ht; done.
Qed.

Lemma gl_run_draws ms g :
  ∃ ds, drawn (gl_run (flat_map draw_calls ms) g) = drawn g ++ ds ∧
        Forall2 (draws_mesh (depth_writemask g) (u_MVP g)) ms ds ∧
        depth_writemask (gl_run (flat_map draw_calls ms) g) = depth_writemask g ∧
        u_MVP (gl_run (flat_map draw_calls ms) g) = u_MVP g.
Proof.
  revert g. induction ms as [|m ms IH]; intros g.
  - exists []. cbn. rewrite app_nil_r. repeat split. constructor.
  - cbn [flat_map]. rewrite gl_run_app.
    destruct (gl_run_draw_calls m g) as (d & Hd & Hm & Hdw & Hmvp).
    destruct (IH (gl_run (draw_calls m) g)) as (ds & Hds & Hms & Hdw' & Hmvp').
    exists (d :: ds). rewrite Hds, Hd, Hdw', Hmvp', Hdw, Hmvp, <- app_assoc.
    repeat split. constructor; [done|]. by rewrite Hdw, Hmvp in Hms.
Qed.

(** ** The callbacks *)

Lemma run_callback_frame cb w :
  ∃ w' evs, run_callback cb w = Ret tt w' ∧
    meshes w' = meshes w ∧ texCache w' = texCache w ∧ ax w' = ax w ∧ ay w' = ay w ∧
    drawn (gl w') = drawn (gl w) ∧ depth_writemask (gl w') = depth_writemask (gl w) ∧
    u_MVP (gl w') = u_MVP (gl w) ∧ buffers (gl w') = buffers (gl w) ∧
    trace w' = trace w ++ evs.
Proof.
  destruct cb as [k a|x y].
  - exists (run (keyCB k a) w), []. rewrite app_nil_r. destruct k, a; done.
  - eexists _, [_]. split; [reflexivity|]. done.
Qed.

Lemma run_callbacks_frame cbs w :
  let w' := run (run_callbacks cbs) w in
  meshes w' = meshes w ∧ texCache w' = texCache w ∧ ax w' = ax w ∧ ay w' = ay w ∧
  drawn (gl w') = drawn (gl w) ∧ depth_writemask (gl w') = depth_writemask (gl w) ∧
  u_MVP (gl w') = u_MVP (gl w) ∧ buffers (gl w') = buffers (gl w) ∧
  ∃ evs, trace w' = trace w ++ evs.
Proof.
  revert w. induction cbs as [|cb cbs IH]; intros w.
  - cbn. repeat split. exists []. by rewrite app_nil_r.
  - destruct (run_callback_frame cb w)
      as (w1 & e1 & E & Hm & Hc & Hx & Hy & Hd & Hdw & Hmvp & Hb & Ht).
    assert (run (run_callbacks (cb :: cbs)) w = run (run_callbacks cbs) w1) as ->.
    { unfold run at 1. cbn [run_callbacks]. unfold mbind, Prog_bind. rewrite E.
      by rewrite run_callbacks_ret. }
    destruct (IH w1) as (Hm' & Hc' & Hx' & Hy' & Hd' & Hdw' & Hmvp' & Hb' & e2 & Ht').
    cbn zeta. rewrite Hm', Hc', Hx', Hy', Hd', Hdw', Hmvp', Hb', Ht', Ht.
    repeat split; try done. exists (e1 ++ e2). by rewrite app_assoc.
Qed.
End Frame.

(** * Claims about the frame *)

Lemma bind_Ret_inv {A B} (m : Prog A) (k : A -> Prog B) w b w' :
  (m ≫= k) w = Ret b w' -> ∃ a w1, m w = Ret a w1 ∧ k a w1 = Ret b w'.
Proof.
  unfold mbind, Prog_bind. destruct (m w) as [a w1| |]; try done. intros H. by exists a, w1.
Qed.

Section Ready.
Context {stbi : Stbi}.

Lemma loadTex_mask f w t w1 :
  loadTex f w = Ret t w1 -> depth_writemask (gl w1) = depth_writemask (gl w).
Proof.
  intros E. destruct (loadTex_cases f w) as (id & w' & E' & Hcase).
  rewrite E in E'. injection E' as <- <-. by destruct Hcase.
Qed.

Lemma resolve_material_ready M mid w m w1 :
  resolve_material M mid w = Ret m w1 ->
  flag_ok m ∧ depth_writemask (gl w1) = depth_writemask (gl w).
Proof.
  intros [(_ & -> & ->)|(_ & mat & _ & [(_ & -> & ->)|(_ & t & Ht & ->)])]%resolve_material_inv;
    try done.
  split; [done|]. by apply loadTex_mask in Ht.
Qed.

Lemma load_shape_ready A M shape w w' :
  load_shape A M shape w = Ret tt w' -> frame_ready w -> frame_ready w'.
Proof.
  intros H [Hdw Hms].
  destruct (load_shape_resolves _ _ _ _ _ H) as [matName Hn].
  destruct (skipped shape matName) eqn:Hs.
  - by rewrite (load_shape_skipped _ _ _ _ _ _ H Hn Hs).
  - destruct (load_shape_retained _ _ _ _ _ _ H Hn Hs) as (m & w1 & rs & Hr & _ & _ & ->).
    pose proof (resolve_material_frame _ _ _ _ _ Hr) as (Hms1 & _).
    apply resolve_material_ready in Hr as [Hf Hdw1].
    split.
    + change (depth_writemask (gl w1) = true). by rewrite Hdw1.
    + change (Forall flag_ok (meshes w1 ++ [with_buffers m
                (to_GLsizei (Z.of_nat (length (flatP rs)) / 3))
                (next_vertex_array (gl w1)) (next_buffer (gl w1))
                (next_buffer (gl w1) + 1)])).
      rewrite Hms1. apply Forall_app. split; [done|]. by constructor.
Qed.

Lemma load_shapes_ready A M S w w' :
  load_shapes A M S w = Ret tt w' -> frame_ready w -> frame_ready w'.
Proof.
  revert w. induction S as [|shape S IH]; intros w H Hw; cbn [load_shapes] in H.
  - by injection H as <-.
  - apply bind_Ret_inv in H as ([] & w1 & H1 & H2).
    eapply IH; [exact H2|]. by eapply load_shape_ready.
Qed.

Lemma loadOBJ_ready `{TinyObj} file base w w' :
  loadOBJ file base w = Ret tt w' -> frame_ready w -> frame_ready w'.
Proof.
  unfold loadOBJ. destruct (LoadObj file base) as [p|[warn err]].
  - apply load_shapes_ready.
  - done.
Qed.

End Ready.

Lemma filter_flag_ok (b : bool) ms :
  Forall flag_ok ms ->
  List.filter (λ m, eqb (transparent m) b) ms
  = List.filter (λ m, eqb (F32.ltb (opacity m) F32.c0_999f) b) ms.
Proof.
  induction 1 as [|m ms Hm _ IH]; [done|]. cbn [List.filter]. by rewrite Hm, IH.
Qed.

(** One frame, spelled out: the globals it changes, the draws it adds to
    the log of the device, and its trace. *)
Lemma frame_spec {glm : Glm} prev inp w :
  let dt := elapsed prev (fi_time inp) in
  let ax' := F32.add (ax w) (F32.mul (sx w) dt) in
  let ay' := F32.add (ay w) (F32.mul (sy w) dt) in
  let mvp := MVP_of (aspect w) ax' ay' in
  ∃ w' ds1 ds2 cb_evs,
    frame prev inp w = Ret (fi_time inp) w' ∧
    meshes w' = meshes w ∧ texCache w' = texCache w ∧ ax w' = ax' ∧ ay w' = ay' ∧
    depth_writemask (gl w') = true ∧ u_MVP (gl w') = mvp ∧
    buffers (gl w') = buffers (gl w) ∧
    drawn (gl w') = drawn (gl w) ++ ds1 ++ ds2 ∧
    Forall2 (draws_mesh (depth_writemask (gl w)) mvp)
      (List.filter (λ m, eqb (transparent m) false) (meshes w)) ds1 ∧
    Forall2 (draws_mesh false mvp)
      (List.filter (λ m, eqb (transparent m) true) (meshes w)) ds2 ∧
    trace w' = trace w ++ map E_gl (frame_calls mvp (meshes w))
                 ++ [E_glfwSwapBuffers; E_glfwPollEvents] ++ cb_evs.
Proof.
  intros dt ax' ay' mvp. rewrite frame_eq. unfold after_frame.
  fold dt. fold ax'. fold ay'.
  set (w1 := set_ay ay' (set_ax ax' w)).
  change (MVP_of (aspect w1) (ax w1) (ay w1)) with mvp.
  change (meshes w1) with (meshes w).
  set (w2 := apply_calls (frame_calls mvp (meshes w)) w1).
  set (w3 := log E_glfwPollEvents (log E_glfwSwapBuffers w2)).
  destruct (run_callbacks_frame (fi_events inp) w3)
    as (Hm & Hc & Hx & Hy & Hd & Hmask & Hu & Hb & evs & Ht).
  cbn zeta in *.
  destruct (apply_calls_globals (frame_calls mvp (meshes w)) w1)
    as (Em & Ec & Ex & Ey & _).
  assert (gl w3 = gl_run (frame_calls mvp (meshes w)) (gl w)) as Hgl
    by (unfold w3, w2; cbn [log gl]; by rewrite apply_calls_gl).
  unfold frame_calls in Hgl.
  rewrite !gl_run_app in Hgl. cbn [gl_run fold_left] in Hgl.
  set (g1 := gl_exec (glUniformMatrix4fv U_MVP mvp) (gl_exec glClear_COLOR_DEPTH (gl w)))
    in Hgl.
  fold (gl_run (pass_calls false (meshes w)) g1) in Hgl.
  unfold pass_calls in Hgl.
  destruct (gl_run_draws (List.filter (λ m, eqb (transparent m) false) (meshes w)) g1)
    as (ds1 & Hds1 & Hf1 & Hdw1 & Hmvp1).
  set (g2 := gl_run (flat_map draw_calls _) g1) in *.
  fold (gl_run (flat_map draw_calls (List.filter (λ m, eqb (transparent m) true) (meshes w)))
          (gl_exec (glDepthMask false) g2)) in Hgl.
  destruct (gl_run_draws (List.filter (λ m, eqb (transparent m) true) (meshes w))
              (gl_exec (glDepthMask false) g2))
    as (ds2 & Hds2 & Hf2 & Hdw2 & Hmvp2).
  set (g3 := gl_run (flat_map draw_calls _) (gl_exec (glDepthMask false) g2)) in *.
  assert (buffers g3 = buffers (gl w)) as Hbuf.
  { assert (∀ ms g, buffers (gl_run (flat_map draw_calls ms) g) = buffers g) as Hpass.
    { induction ms as [|m ms IH]; intros g; [done|].
      cbn [flat_map]. rewrite gl_run_app, IH. unfold draw_calls.
      by destruct (hasTex m). }
    unfold g3. rewrite Hpass. change (buffers g2 = buffers (gl w)).
    unfold g2. by rewrite Hpass. }
  exists (run (run_callbacks (fi_events inp)) w3), ds1, ds2, evs.
  split; [done|].
  split; [by rewrite Hm|]. split; [by rewrite Hc|].
  split; [by rewrite Hx|]. split; [by rewrite Hy|].
  split; [by rewrite Hmask, Hgl|].
  split.
  { rewrite Hu, Hgl. change (u_MVP g3 = mvp). rewrite Hmvp2.
    change (u_MVP g2 = mvp). by rewrite Hmvp1. }
  split; [by rewrite Hb, Hgl|].
  split.
  { rewrite Hd, Hgl. change (drawn g3 = drawn (gl w) ++ ds1 ++ ds2). rewrite Hds2.
    change (drawn g2 ++ ds2 = drawn (gl w) ++ ds1 ++ ds2). rewrite Hds1.
    change (drawn g1) with (drawn (gl w)). by rewrite <- app_assoc. }
  split; [exact Hf1|].
  split.
  { replace (u_MVP (gl_exec (glDepthMask false) g2)) with mvp in Hf2
      by (symmetry; exact Hmvp1). exact Hf2. }
  rewrite Ht. unfold w3, w2. cbn [log trace]. rewrite apply_calls_trace.
  by rewrite <- !app_assoc.
Qed.

(** C2. A frame that starts with depth writes enabled and a scene whose
    flags agree with the opacities draws, in the order of the scene, first
    every mesh whose opacity is not below 0.999f with depth writes on (this
    includes every mesh with [0.999f <= opacity]) and then every mesh whose
    opacity is below 0.999f with depth writes off; the call right after the
    second pass is [glDepthMask(GL_TRUE)], so the frame ends as it started
    and the next frame starts in the same way.  For an opacity that is a
    binary32 number, "below 0.999f" is "below the decimal 0.999".  The
    import from the initial state followed by the first [resizeCB] leaves
    such a world. *)
Theorem opaque_before_transparent {glm : Glm} {stbi : Stbi} {tinyobj : TinyObj} :
  (∀ file base w, loadOBJ file base World_init = Ret tt w ->
     frame_ready (run (resizeCB 900 700) w)) ∧
  (∀ prev inp w, frame_ready w ->
     ∃ w' ds1 ds2 cb_evs mvp,
       frame prev inp w = Ret (fi_time inp) w' ∧
       frame_ready w' ∧ meshes w' = meshes w ∧
       drawn (gl w') = drawn (gl w) ++ ds1 ++ ds2 ∧
       Forall2 (draws_mesh true mvp)
         (List.filter (λ m, negb (F32.ltb (opacity m) F32.c0_999f)) (meshes w)) ds1 ∧
       Forall2 (draws_mesh false mvp)
         (List.filter (λ m, F32.ltb (opacity m) F32.c0_999f) (meshes w)) ds2 ∧
       trace w' = trace w ++ map E_gl (frame_calls mvp (meshes w))
                    ++ [E_glfwSwapBuffers; E_glfwPollEvents] ++ cb_evs) ∧
  (∀ x, F32.leb F32.c0_999f x = true -> negb (F32.ltb x F32.c0_999f) = true) ∧
  (∀ x, F32.valid x = true ->
     (F32.ltb x F32.c0_999f = true ↔ real_lt x 999 1000) ∧
     (real_ge x 999 1000 -> negb (F32.ltb x F32.c0_999f) = true)).
Proof.
  split; [|split; [|split]].
  - intros file base w H. apply (loadOBJ_ready _ _ _ _ H). split; [done|constructor].
  - intros prev inp w [Hdw Hms].
    destruct (frame_spec prev inp w)
      as (w' & ds1 & ds2 & evs & E & Hm & _ & _ & _ & Hmask & _ & _ & Hd & Hf1 & Hf2 & Ht).
    cbn zeta in *.
    exists w', ds1, ds2, evs. eexists.
    split; [exact E|]. split; [split; [exact Hmask|by rewrite Hm]|].
    split; [exact Hm|]. split; [exact Hd|].
    split.
    { rewrite (filter_flag_ok false _ Hms), Hdw in Hf1.
      erewrite List.filter_ext; [exact Hf1|]. intros m; cbn. by destruct (F32.ltb _ _). }
    split; [|exact Ht].
    rewrite (filter_flag_ok true _ Hms) in Hf2.
    erewrite List.filter_ext; [exact Hf2|]. intros m; cbn. by destruct (F32.ltb _ _).
  - intros x Hx. by rewrite (leb_c0_999f_not_ltb _ Hx).
  - intros x Hx. destruct (ltb_c0_999f_real x Hx) as [H1 H2].
    split; [exact H1|]. intros Hge. by rewrite (H2 Hge).
Qed.

(** C8. One frame adds [rate * dt] to each angle, in binary32 and with
    nothing else done to the sum; the matrix it uploads, once, is
    [P * V * M] with [M = translate(-center) * rotate(angleX, x axis) *
    rotate(angleY, y axis)] at the new angles, and every draw of the frame
    is made under that matrix. *)
Theorem frame_integrates_and_uploads_MVP {glm : Glm} prev inp w :
  let dt := elapsed prev (fi_time inp) in
  ∃ w' ds cb_evs,
    frame prev inp w = Ret (fi_time inp) w' ∧
    ax w' = F32.add (ax w) (F32.mul (sx w) dt) ∧
    ay w' = F32.add (ay w) (F32.mul (sy w) dt) ∧
    let Model :=
      mat4_mul
        (mat4_mul (glm_translate mat4_1 (vec3_neg center))
                  (glm_rotate mat4_1 (ax w') (Vec3 F32.one F32.zero F32.zero)))
        (glm_rotate mat4_1 (ay w') (Vec3 F32.zero F32.one F32.zero)) in
    let mvp := mat4_mul (mat4_mul (projection_matrix (aspect w)) view_matrix) Model in
    u_MVP (gl w') = mvp ∧
    drawn (gl w') = drawn (gl w) ++ ds ∧ Forall (λ d, d_MVP d = mvp) ds ∧
    trace w' = trace w ++ map E_gl (frame_calls mvp (meshes w))
                 ++ [E_glfwSwapBuffers; E_glfwPollEvents] ++ cb_evs ∧
    List.filter is_matrix_upload (frame_calls mvp (meshes w))
      = [glUniformMatrix4fv U_MVP mvp].
Proof.
  intros dt.
  destruct (frame_spec prev inp w)
    as (w' & ds1 & ds2 & evs & E & _ & _ & Hx & Hy & _ & Hu & _ & Hd & Hf1 & Hf2 & Ht).
  cbn zeta in *. fold dt in Hx, Hy, Hu, Hf1, Hf2, Ht.
  exists w', (ds1 ++ ds2), evs.
  split; [exact E|]. split; [exact Hx|]. split; [exact Hy|].
  rewrite Hx, Hy. split; [exact Hu|]. split; [exact Hd|]. split; [|split; [exact Ht|]].
  - apply Forall_app. split.
    + clear -Hf1. induction Hf1 as [|m d ms ds Hmd _ IH]; constructor; [|exact IH].
      apply Hmd.
    + clear -Hf2. induction Hf2 as [|m d ms ds Hmd _ IH]; constructor; [|exact IH].
      apply Hmd.
  - unfold frame_calls, pass_calls. cbn [app List.filter is_matrix_upload]. f_equal.
    assert (∀ ms, List.filter is_matrix_upload (flat_map draw_calls ms) = []) as Hnone.
    { induction ms as [|m ms IH]; [done|]. cbn [flat_map].
      rewrite List.filter_app, IH, app_nil_r. unfold draw_calls. by destruct (hasTex m). }
    rewrite List.filter_app, Hnone. cbn [app List.filter is_matrix_upload].
    rewrite List.filter_app, Hnone. reflexivity.
Qed.

Lemma opaque_before_transparent_witness :
  let w0 := run (loadOBJ (stbi := stbi_glass) (tinyobj := tinyobj_of demo_scene) "a.obj" "./")
              World_init in
  ∃ w' ds1 ds2,
    frame (glm := glm_fixed) (F64.of_Z 0) {| fi_time := F64.of_Z 1; fi_events := [] |} w0
      = Ret (F64.of_Z 1) w' ∧
    drawn (gl w') = ds1 ++ ds2 ∧ length ds1 = 1%nat ∧ length ds2 = 1%nat ∧
    Forall (λ d, d_depth_write d = true) ds1 ∧ Forall (λ d, d_depth_write d = false) ds2.
Proof.
  intros w0.
  destruct (@opaque_before_transparent glm_fixed stbi_glass (tinyobj_of demo_scene))
    as (_ & H & _).
  destruct (H (F64.of_Z 0) {| fi_time := F64.of_Z 1; fi_events := [] |} w0)
    as (w' & ds1 & ds2 & evs & mvp & E & _ & _ & Hd & Hf1 & Hf2 & _).
  { split; [reflexivity|]. repeat constructor. }
  exists w', ds1, ds2. split; [exact E|]. split; [exact Hd|].
  split; [symmetry; apply (Forall2_length _ _ _ Hf1)|].
  split; [symmetry; apply (Forall2_length _ _ _ Hf2)|].
  split.
  - clear -Hf1. induction Hf1 as [|m d ms ds Hmd _ IH]; constructor; [apply Hmd|exact IH].
  - clear -Hf2. induction Hf2 as [|m d ms ds Hmd _ IH]; constructor; [apply Hmd|exact IH].
Defined.

(** * Further properties of the import *)

(** ** When the loops stay in range *)

Lemma at_int_Some {A} (v : list A) k i j x :
  at_int v k i j = Some x ->
  - 2 ^ 31 <= k * i < 2 ^ 31 ∧ 0 <= k * i + j < 2 ^ 31 ∧
  (Z.to_nat (k * i + j) < length v)%nat.
Proof.
  unfold at_int, int_ok. intros H.
  destruct (_ && _) eqn:E; [|done].
  apply andb_true_iff in E as [E E3]. apply andb_true_iff in E as [E1 E2].
  apply andb_true_iff in E1 as [E1a E1b]. apply andb_true_iff in E2 as [E2a E2b].
  apply lookup_lt_Some in H. lia.
Qed.

Lemma at_int_is_Some {A} (v : list A) k i j :
  - 2 ^ 31 <= k * i < 2 ^ 31 -> 0 <= k * i + j < 2 ^ 31 ->
  k * i + j < Z.of_nat (length v) -> is_Some (at_int v k i j).
Proof.
  intros H1 H2 H3. unfold at_int, int_ok.
  assert ((- 2 ^ 31 <=? k * i) && (k * i <? 2 ^ 31) &&
          ((- 2 ^ 31 <=? k * i + j) && (k * i + j <? 2 ^ 31)) && (0 <=? k * i + j) = true)
    as -> by lia.
  apply lookup_lt_is_Some. lia.
Qed.

Lemma vertex_rel_index_ok A idx r : vertex_rel A idx r -> index_ok A idx = true.
Proof.
  intros [(Hx & _ & Hz) Ht]. unfold index_ok.
  apply at_int_Some in Hx, Hz.
  assert (0 <= vertex_index idx ∧ 3 * vertex_index idx + 2 < Z.of_nat (length (vertices A))
          ∧ 3 * vertex_index idx + 2 < 2 ^ 31) as (H1 & H2 & H3) by lia.
  destruct Ht as [(Hpos & v & Hu & Hv & _)|(Hneg & _)].
  - apply at_int_Some in Hv. lia.
  - lia.
Qed.

Lemma index_ok_push_vertex A idx acc :
  index_ok A idx = true -> is_Some (push_vertex A idx acc).
Proof.
  unfold index_ok. intros H. destruct acc as [P UV].
  apply andb_true_iff in H as [H Ht]. apply andb_true_iff in H as [H H3].
  apply andb_true_iff in H as [H1 H2].
  unfold push_vertex.
  destruct (at_int_is_Some (vertices A) 3 (vertex_index idx) 0) as [x ->]; [lia..|].
  destruct (at_int_is_Some (vertices A) 3 (vertex_index idx) 1) as [y ->]; [lia..|].
  destruct (at_int_is_Some (vertices A) 3 (vertex_index idx) 2) as [z ->]; [lia..|].
  cbn [mbind option_bind].
  destruct (Z.leb_spec 0 (texcoord_index idx)); [|done].
  destruct (at_int_is_Some (texcoords A) 2 (texcoord_index idx) 0) as [a ->]; [lia..|].
  destruct (at_int_is_Some (texcoords A) 2 (texcoord_index idx) 1) as [b ->]; [lia..|].
  done.
Qed.

Lemma face_loop_total A I off n : ∀ v acc,
  (off + v + n <= length I)%nat ->
  Forall (λ idx, index_ok A idx = true) (take n (drop (off + v) I)) ->
  is_Some (face_loop A I off v n acc).
Proof.
  induction n as [|n IH]; intros v acc Hlen Hok; cbn [face_loop]; [done|].
  destruct (lookup_lt_is_Some_2 I (off + v)%nat) as [idx Hi]; [lia|].
  rewrite Hi. cbn [mbind option_bind].
  rewrite (drop_S _ _ _ Hi) in Hok. cbn [take] in Hok.
  apply Forall_cons in Hok as [Hidx Hok].
  destruct (index_ok_push_vertex A idx acc Hidx) as [acc' ->]. cbn [mbind option_bind].
  apply IH; [lia|]. by replace (off + S v)%nat with (S (off + v)) by lia.
Qed.

Lemma faces_loop_total A I fvs : ∀ off acc,
  (off + vertex_count fvs <= length I)%nat ->
  Forall (λ idx, index_ok A idx = true) (take (vertex_count fvs) (drop off I)) ->
  is_Some (faces_loop A I fvs off acc).
Proof.
  induction fvs as [|fv fvs IH]; intros off acc Hlen Hok; cbn [faces_loop]; [done|].
  cbn [vertex_count foldr] in Hlen, Hok. fold (vertex_count fvs) in Hlen, Hok.
  rewrite <- (take_drop fv (drop off I)) in Hok.
  assert (length (take fv (drop off I)) = fv) as Hfv
    by (rewrite length_take, length_drop; lia).
  rewrite take_app_add' in Hok by done. apply Forall_app in Hok as [Hok1 Hok2].
  rewrite drop_drop in Hok2.
  destruct (face_loop_total A I off fv 0 acc) as [acc' ->];
    [lia|by rewrite Nat.add_0_r|].
  cbn [mbind option_bind]. apply IH; [lia|done].
Qed.

Lemma faces_ok_iff A ms :
  faces_ok A ms = true ↔
  is_Some (faces_loop A (indices ms) (num_face_vertices ms) 0 ([], [])).
Proof.
  unfold faces_ok. split.
  - intros [Hlen Hok]%andb_true_iff. apply Nat.leb_le in Hlen.
    apply faces_loop_total; [lia|]. rewrite drop_0.
    apply Forall_forall. intros idx Hin. rewrite forallb_forall in Hok.
    apply Hok. by apply list_elem_of_In.
  - intros [[P UV] H]. apply faces_loop_spec in H as (rs & Hrs & Hlen & _).
    rewrite drop_0 in Hrs. apply andb_true_iff. split.
    + apply Nat.leb_le. apply Forall2_length in Hrs. rewrite length_take in Hrs. lia.
    + apply forallb_forall. intros idx Hin. apply list_elem_of_In in Hin.
      apply list_elem_of_lookup in Hin as [k Hk].
      destruct (Forall2_lookup_l _ _ _ _ _ Hrs Hk) as (r & _ & Hr).
      by apply (vertex_rel_index_ok _ _ r).
Qed.

Section Defined.
Context {stbi : Stbi}.

Lemma resolve_material_total M mid w :
  mid < 0 ∨ is_Some (material_at M mid) -> ∃ m w1, resolve_material M mid w = Ret m w1.
Proof.
  intros H. unfold resolve_material. destruct (Z.leb_spec 0 mid) as [Hm|Hm].
  - destruct H as [H|[mat Hmat]]; [lia|]. unfold mbind, Prog_bind. rewrite Hmat. cbn.
    destruct (negb _); [|by eexists _, _].
    destruct (loadTex_cases (diffuse_texname mat) w) as (id & w1 & -> & _).
    by eexists _, _.
  - by eexists _, _.
Qed.

Lemma resolved_name_material M shape matName :
  resolved_name M shape = Some matName ->
  first_material_id shape < 0 ∨ is_Some (material_at M (first_material_id shape)).
Proof.
  unfold resolved_name, material_name.
  destruct (Z.leb_spec 0 (first_material_id shape)); [|by left].
  destruct (material_at M _); [by right|done].
Qed.

(** An iteration of the shape loop returns when the shape is well formed
    and is undefined otherwise; it never exits. *)
Lemma load_shape_outcome A M shape w :
  if shape_ok A M shape then ∃ w', load_shape A M shape w = Ret tt w'
  else load_shape A M shape w = Undef.
Proof.
  remember (load_shape A M shape w) as o eqn:Ho.
  unfold shape_ok. unfold load_shape in Ho. fold (resolved_name M shape) in Ho.
  unfold mbind at 1, Prog_bind at 1 in Ho.
  destruct (resolved_name M shape) as [matName|] eqn:Hn; [|done].
  cbn [lift] in Ho. unfold mret at 1, Prog_ret at 1 in Ho.
  destruct (skipped shape matName); [by exists w|]. cbn [orb].
  destruct (resolve_material_total M (first_material_id shape) w) as (m & w1 & Hr);
    [by eapply resolved_name_material|].
  unfold mbind at 1, Prog_bind at 1 in Ho. rewrite Hr in Ho.
  unfold mbind at 1, Prog_bind at 1 in Ho.
  destruct (faces_loop A _ _ 0 ([], [])) as [acc|] eqn:Hacc.
  - assert (faces_ok A (mesh shape) = true) as -> by (apply faces_ok_iff; by eexists).
    subst o. eexists. reflexivity.
  - destruct (faces_ok A (mesh shape)) eqn:Hf; [|by subst o].
    apply faces_ok_iff in Hf as [acc Hacc']. congruence.
Qed.

Lemma load_shapes_outcome A M S w :
  if forallb (shape_ok A M) S then ∃ w', load_shapes A M S w = Ret tt w'
  else load_shapes A M S w = Undef.
Proof.
  revert w. induction S as [|shape S IH]; intros w; cbn [forallb load_shapes].
  - by exists w.
  - pose proof (load_shape_outcome A M shape w) as H.
    unfold mbind, Prog_bind.
    destruct (shape_ok A M shape); cbn [andb].
    + destruct H as [w1 ->]. apply IH.
    + by rewrite H.
Qed.

End Defined.

(** X1.  For a parsed scene whose face sizes are all below [2 ^ 31] (the
    sizes that line 137 reads into [int] unchanged), the import returns
    exactly when every shape is well formed: the material of its first
    face exists and, unless the shape is skipped, its index list covers
    its faces and the indices it uses are inside the attribute pool.  On
    any other such scene a vector is read out of range.  The loop itself
    never exits the process. *)
Theorem import_defined_iff_well_formed {stbi : Stbi} A M S w :
  Forall (λ shape, int_sized (num_face_vertices (mesh shape))) S ->
  ((∃ w', load_shapes A M S w = Ret tt w') ↔ forallb (shape_ok A M) S = true) ∧
  (forallb (shape_ok A M) S = false -> load_shapes A M S w = Undef) ∧
  (∀ c w', load_shapes A M S w ≠ Exit c w').
Proof.
  intros _. pose proof (load_shapes_outcome A M S w) as H.
  destruct (forallb (shape_ok A M) S).
  - destruct H as [w' E]. split; [split; [done|by exists w']|].
    split; [done|]. intros c w1. by rewrite E.
  - split; [split; [|done]|].
    + intros [w' E]. by rewrite H in E.
    + split; [done|]. intros c w1. by rewrite H.
Qed.

Lemma import_defined_iff_well_formed_witness :
  load_shapes (stbi := stbi_none) demo_attrib demo_materials
    [ {| name := "Broken";
         mesh := {| indices := [ix 0 0; ix 1 1]; num_face_vertices := [3%nat];
                    material_ids := [] |} |} ] World_init = Undef.
Proof.
  destruct (@import_defined_iff_well_formed stbi_none demo_attrib demo_materials
              [ {| name := "Broken";
                   mesh := {| indices := [ix 0 0; ix 1 1]; num_face_vertices := [3%nat];
                              material_ids := [] |} |} ] World_init) as (_ & H & _).
  - by repeat constructor.
  - apply H. reflexivity.
Defined.

(** X2.  [loadOBJ] terminates the process exactly when the parser fails:
    the exit code is 1 and the only thing that has happened is the line
    on stderr.  When the parser succeeds the outcome is that of the loop
    over the shapes. *)
Theorem loadOBJ_exits_iff_parse_fails {stbi : Stbi} {tinyobj : TinyObj} file base w :
  (∀ warn err, LoadObj file base = inr (warn, err) ->
     loadOBJ file base w = Exit 1 (log (E_stderr (warn +:+ " " +:+ err)) w)) ∧
  (∀ p, LoadObj file base = inl p ->
     loadOBJ file base w = load_shapes (p_attrib p) (p_materials p) (p_shapes p) w) ∧
  ((∃ c w', loadOBJ file base w = Exit c w') ↔ ∃ e, LoadObj file base = inr e).
Proof.
  unfold loadOBJ. destruct (LoadObj file base) as [p|[warn err]] eqn:E.
  - split; [done|]. split; [by intros ? [= <-]|]. split.
    + intros (c & w' & H).
      pose proof (load_shapes_outcome (p_attrib p) (p_materials p) (p_shapes p) w) as Ho.
      destruct (forallb _ _); [destruct Ho as [w1 Ho]|]; by rewrite Ho in H.
    + by intros [e He].
  - split; [by intros ? ? [= <- <-]|]. split; [done|]. split.
    + intros _. by eexists.
    + intros _. by eexists _, _.
Qed.

Lemma loadOBJ_exits_iff_parse_fails_witness :
  loadOBJ (stbi := stbi_none) (tinyobj := {| LoadObj := λ _ _, inr ("", "no file") |})
    "a.obj" "./" World_init
  = Exit 1 (log (E_stderr (" no file")) World_init).
Proof.
  destruct (@loadOBJ_exits_iff_parse_fails stbi_none
              {| LoadObj := λ _ _, inr ("", "no file") |} "a.obj" "./" World_init)
    as [H _].
  apply (H "" "no file"). reflexivity.
Defined.

(** ** The scene, shape by shape *)

Lemma verts_of_records rs :
  to_GLsizei (Z.of_nat (length (flatP rs)) / 3) = to_GLsizei (Z.of_nat (length rs)).
Proof.
  f_equal. rewrite length_flatP, Nat2Z.inj_mul. change (Z.of_nat 3) with 3.
  rewrite Z.mul_comm. by apply Z.div_mul.
Qed.

Section Scene.
Context {stbi : Stbi}.





End Scene.


(** ** Names and buffers of the scene *)

Lemma names_ok_extend w w' m' :
  meshes w' = meshes w ++ [m'] ->
  next_buffer (gl w') = next_buffer (gl w) + 1 + 1 ->
  next_vertex_array (gl w') = next_vertex_array (gl w) + 1 ->
  vao m' = next_vertex_array (gl w) ->
  vboPos m' = next_buffer (gl w) -> vboUV m' = next_buffer (gl w) + 1 ->
  names_ok w -> names_ok w'.
Proof.
  intros Hms Hnb Hnv Hvao Hp Hu (Hb1 & Hv1 & Hall & Hnd1 & Hnd2).
  unfold names_ok. rewrite Hms, Hnb, Hnv.
  split; [lia|]. split; [lia|]. split; [|split].
  - apply Forall_app. split.
    + eapply Forall_impl; [exact Hall|]. cbn. intros m ?. lia.
    + constructor; [|constructor]. lia.
  - rewrite map_app. apply NoDup_app. split; [done|]. split; [|apply NoDup_singleton].
    intros x Hx Hx'. cbn in Hx'. apply list_elem_of_singleton in Hx'. subst x.
    apply list_elem_of_In, in_map_iff in Hx as (m & Em & Hm).
    apply list_elem_of_In in Hm.
    rewrite Forall_forall in Hall. specialize (Hall m Hm). lia.
  - rewrite flat_map_app. apply NoDup_app. split; [done|]. split.
    + intros x Hx Hx'. cbn in Hx'.
      apply list_elem_of_In, in_flat_map in Hx as (m & Hm & Hx).
      apply list_elem_of_In in Hm. rewrite Forall_forall in Hall. specialize (Hall m Hm).
      cbn in Hx.
      apply elem_of_cons in Hx' as [->|Hx'];
        [|apply elem_of_cons in Hx' as [->|Hx']; [|by apply elem_of_nil in Hx']];
        destruct Hx as [Hx|[Hx|[]]]; lia.
    + cbn. apply NoDup_cons. split; [|apply NoDup_singleton].
      intros H. apply list_elem_of_singleton in H. lia.
Qed.

Lemma scene_stored_extend w w' m' rs :
  meshes w' = meshes w ++ [m'] ->
  buffers (gl w') = <[vboUV m' := flatUV rs]> (<[vboPos m' := flatP rs]> (buffers (gl w))) ->
  vboPos m' = next_buffer (gl w) -> vboUV m' = next_buffer (gl w) + 1 ->
  verts m' = to_GLsizei (Z.of_nat (length rs)) ->
  names_ok w -> scene_stored w -> scene_stored w'.
Proof.
  intros Hms Hbuf Hp Hu Hv (_ & _ & Hall & _) Hst.
  unfold scene_stored, stored. rewrite Hms, Hbuf. apply Forall_app. split.
  - unfold scene_stored, stored in Hst.
    rewrite Forall_forall in Hall. rewrite Forall_forall in Hst.
    apply Forall_forall. intros m Hm.
    destruct (Hst m Hm) as (rs0 & [H1 H2] & H3). specialize (Hall m Hm).
    exists rs0. split; [|done].
    split; (rewrite lookup_insert_ne by lia; rewrite lookup_insert_ne by lia; done).
  - constructor; [|constructor]. exists rs. split; [|done]. split.
    + rewrite lookup_insert_ne by lia. apply lookup_insert_eq.
    + apply lookup_insert_eq.
Qed.

Section Names.
Context {stbi : Stbi}.

Lemma load_shape_keeps_scene A M shape w w' :
  load_shape A M shape w = Ret tt w' ->
  names_ok w ∧ scene_stored w -> names_ok w' ∧ scene_stored w'.
Proof.
  intros H [Hn Hs].
  destruct (load_shape_resolves _ _ _ _ _ H) as [matName Hname].
  destruct (skipped shape matName) eqn:Hsk.
  - by rewrite (load_shape_skipped _ _ _ _ _ _ H Hname Hsk).
  - destruct (load_shape_retained _ _ _ _ _ _ H Hname Hsk)
      as (m & w1 & rs & Hr & _ & _ & ->).
    pose proof (resolve_material_frame _ _ _ _ _ Hr) as (Hms & Hb & Hnb & Hnv).
    assert (names_ok w1) as Hn1 by (unfold names_ok; by rewrite Hms, Hnb, Hnv).
    assert (scene_stored w1) as Hs1 by (unfold scene_stored, stored; by rewrite Hms, Hb).
    split.
    + eapply (names_ok_extend w1); try exact Hn1; reflexivity.
    + eapply (scene_stored_extend w1 _ _ rs); try exact Hn1; try exact Hs1;
        try reflexivity. apply verts_of_records.
Qed.

Lemma load_shapes_keeps_scene A M S w w' :
  load_shapes A M S w = Ret tt w' ->
  names_ok w ∧ scene_stored w -> names_ok w' ∧ scene_stored w'.
Proof.
  revert w. induction S as [|shape S IH]; intros w H Hw; cbn [load_shapes] in H.
  - by injection H as <-.
  - apply bind_Ret_inv in H as ([] & w1 & H1 & H2).
    eapply IH; [exact H2|]. by eapply load_shape_keeps_scene.
Qed.

End Names.

(** ** The frames leave the scene alone *)

Lemma filter_partition_length {A} (f : A -> bool) (l : list A) :
  (length (List.filter (λ x, eqb (f x) false) l)
   + length (List.filter (λ x, eqb (f x) true) l))%nat = length l.
Proof.
  induction l as [|x l IH]; [done|]. cbn [List.filter].
  destruct (f x); cbn [eqb length]; lia.
Qed.

Lemma frames_spec {glm : Glm} inps : ∀ prev w,
  ∃ w', frames prev inps w = Ret (last_time prev inps) w' ∧
    meshes w' = meshes w ∧ texCache w' = texCache w ∧
    buffers (gl w') = buffers (gl w) ∧
    length (drawn (gl w')) = (length (drawn (gl w)) + length inps * length (meshes w))%nat.
Proof.
  induction inps as [|inp inps IH]; intros prev w.
  - exists w. cbn. repeat split; lia.
  - destruct (frame_spec prev inp w)
      as (w1 & ds1 & ds2 & evs & E & Hm & Hc & _ & _ & _ & _ & Hb & Hd & Hf1 & Hf2 & _).
    destruct (IH (fi_time inp) w1) as (w' & E' & Hm' & Hc' & Hb' & Hd').
    exists w'. cbn [frames last_time fold_left]. unfold mbind, Prog_bind. rewrite E.
    split; [exact E'|]. rewrite Hm', Hc', Hb', Hd', Hm, Hc, Hb, Hd.
    repeat split. rewrite !length_app.
    apply Forall2_length in Hf1, Hf2. rewrite <- Hf1, <- Hf2.
    pose proof (filter_partition_length transparent (meshes w)). cbn [length]. lia.
Qed.

(** X4.  After the import from the initial state, the vertex arrays and
    buffers of the scene have positive names, no name is used twice, and
    the two buffers of every mesh hold its records: three floats and two
    floats per vertex, for as many vertices as the mesh declares.  Loading
    a later shape never overwrites the buffers of an earlier one, and the
    frames that follow change neither the scene nor the buffers. *)
Theorem scene_buffers_distinct_and_kept
    {glm : Glm} {stbi : Stbi} {tinyobj : TinyObj} file base w :
  loadOBJ file base World_init = Ret tt w ->
  names_ok w ∧ scene_stored w ∧
  ∀ prev inps, ∃ w',
    frames prev inps (run (resizeCB 900 700) w) = Ret (last_time prev inps) w' ∧
    meshes w' = meshes w ∧ scene_stored w'.
Proof.
  intros H.
  assert (names_ok w ∧ scene_stored w) as [Hn Hs].
  { unfold loadOBJ in H. destruct (LoadObj file base) as [p|[warn err]]; [|done].
    apply (load_shapes_keeps_scene _ _ _ _ _ H).
    split; [|constructor]. repeat split; try done; constructor. }
  split; [exact Hn|]. split; [exact Hs|]. intros prev inps.
  destruct (frames_spec inps prev (run (resizeCB 900 700) w)) as (w' & E & Hm & _ & Hb & _).
  exists w'. split; [exact E|]. split; [exact Hm|].
  unfold scene_stored, stored. rewrite Hm, Hb. exact Hs.
Qed.

Lemma scene_buffers_distinct_and_kept_witness :
  let w := run (loadOBJ (stbi := stbi_glass) (tinyobj := tinyobj_of demo_scene) "a.obj" "./")
             World_init in
  NoDup (map vao (meshes w)) ∧ scene_stored w.
Proof.
  intros w.
  destruct (@scene_buffers_distinct_and_kept glm_fixed stbi_glass (tinyobj_of demo_scene)
              "a.obj" "./" w) as ((_ & _ & _ & Hnd & _) & Hs & _); [reflexivity|].
  split; [exact Hnd|exact Hs].
Defined.



(** * Further properties of the frame loop *)

Lemma filter_partition_perm {A} (f : A -> bool) (l : list A) :
  List.filter (λ x, eqb (f x) false) l ++ List.filter (λ x, eqb (f x) true) l ≡ₚ l.
Proof.
  induction l as [|x l IH]; [done|]. cbn [List.filter].
  destruct (f x); cbn [eqb].
  - rewrite <- Permutation_middle. by constructor.
  - cbn. by constructor.
Qed.

Lemma draws_mesh_key dw mvp ms ds :
  Forall2 (draws_mesh dw mvp) ms ds ->
  map (λ d, (d_vao d, d_count d)) ds = map (λ m, (vao m, verts m)) ms.
Proof.
  induction 1 as [|m d ms ds (Hv & Hc & _) _ IH]; [done|].
  cbn [map]. by rewrite Hv, Hc, IH.
Qed.

(** X6.  A frame draws every mesh of the scene exactly once, whatever the
    flags say: the draws it adds are, up to order, the vertex arrays and
    vertex counts of the scene.  Each draw is made with the uniforms of
    its own mesh, and the frame changes neither the scene, nor the cache,
    nor a buffer. *)
Theorem frame_draws_each_mesh_once {glm : Glm} prev inp w :
  ∃ w' ds,
    frame prev inp w = Ret (fi_time inp) w' ∧
    drawn (gl w') = drawn (gl w) ++ ds ∧
    map (λ d, (d_vao d, d_count d)) ds ≡ₚ map (λ m, (vao m, verts m)) (meshes w) ∧
    Forall (λ d, ∃ m, m ∈ meshes w ∧ d_vao d = vao m ∧
                      d_useTexture d = (if hasTex m then 1 else 0) ∧
                      d_baseColor d = kd m ∧ d_opacity d = opacity m ∧
                      (hasTex m = true -> d_texture d = tex m)) ds ∧
    meshes w' = meshes w ∧ texCache w' = texCache w ∧ buffers (gl w') = buffers (gl w).
Proof.
  destruct (frame_spec prev inp w)
    as (w' & ds1 & ds2 & evs & E & Hm & Hc & _ & _ & _ & _ & Hb & Hd & Hf1 & Hf2 & _).
  exists w', (ds1 ++ ds2). split; [exact E|]. split; [exact Hd|].
  split; [|split; [|done]].
  - rewrite map_app, (draws_mesh_key _ _ _ _ Hf1), (draws_mesh_key _ _ _ _ Hf2), <- map_app.
    apply Permutation_map, filter_partition_perm.
  - assert (∀ dw mvp b ds,
              Forall2 (draws_mesh dw mvp)
                (List.filter (λ m, eqb (transparent m) b) (meshes w)) ds ->
              Forall (λ d, ∃ m, m ∈ meshes w ∧ d_vao d = vao m ∧
                        d_useTexture d = (if hasTex m then 1 else 0) ∧
                        d_baseColor d = kd m ∧ d_opacity d = opacity m ∧
                        (hasTex m = true -> d_texture d = tex m)) ds) as Hall.
    { intros dw mvp b ds H. apply Forall_forall. intros d Hd'.
      apply list_elem_of_lookup in Hd' as [k Hk].
      destruct (Forall2_lookup_r _ _ _ _ _ H Hk) as (m & Hmk & Hmd).
      exists m. split.
      - apply list_elem_of_lookup_2 in Hmk.
        apply list_elem_of_In, filter_In in Hmk as [Hin _]. by apply list_elem_of_In.
      - destruct Hmd as (? & ? & ? & ? & ? & ? & ? & ?). done. }
    apply Forall_app. split; eapply Hall; eassumption.
Qed.

(** X7.  The frame loop never fails and never exits; it returns the time
    of the last frame as the new clock, leaves the scene, the cache and
    the buffers as they were, and adds one draw per mesh and frame. *)
Theorem frames_keep_scene {glm : Glm} prev inps w :
  ∃ w', frames prev inps w = Ret (last_time prev inps) w' ∧
    meshes w' = meshes w ∧ texCache w' = texCache w ∧
    buffers (gl w') = buffers (gl w) ∧
    length (drawn (gl w')) = (length (drawn (gl w)) + length inps * length (meshes w))%nat.
Proof. apply frames_spec. Qed.

(** ** The key callback *)

Lemma keyCB_globals k a w :
  let w' := run (keyCB k a) w in
  keyCB k a w = Ret tt w' ∧
  meshes w' = meshes w ∧ texCache w' = texCache w ∧ gl w' = gl w ∧ trace w' = trace w ∧
  ax w' = ax w ∧ ay w' = ay w ∧ aspect w' = aspect w.
Proof. destruct k, a; done. Qed.

Lemma keyCB_rates k a w :
  rate_ok (sx w) -> rate_ok (sy w) ->
  rate_ok (sx (run (keyCB k a) w)) ∧ rate_ok (sy (run (keyCB k a) w)).
Proof.
  intros Hx Hy. unfold rate_ok.
  destruct k, a; cbn; split; first [exact Hx|exact Hy|by left|by right; left|by right; right].
Qed.

Lemma run_callbacks_rates cbs : ∀ w,
  rate_ok (sx w) -> rate_ok (sy w) ->
  rate_ok (sx (run (run_callbacks cbs) w)) ∧ rate_ok (sy (run (run_callbacks cbs) w)).
Proof.
  induction cbs as [|cb cbs IH]; intros w Hx Hy; [done|].
  assert (∃ w1, run_callback cb w = Ret tt w1 ∧ rate_ok (sx w1) ∧ rate_ok (sy w1))
    as (w1 & E & Hx1 & Hy1).
  { destruct cb as [k a|x y].
    - exists (run (keyCB k a) w). split; [apply keyCB_globals|by apply keyCB_rates].
    - eexists. split; [reflexivity|]. done. }
  assert (run (run_callbacks (cb :: cbs)) w = run (run_callbacks cbs) w1) as ->.
  { unfold run at 1. cbn [run_callbacks]. unfold mbind, Prog_bind. rewrite E.
    by rewrite run_callbacks_ret. }
  by apply IH.
Qed.

(** X8.  The key callback changes nothing but the two rates, and whatever
    keys are pressed, released or repeated, in whatever order, each rate
    is one of 0, 1.5 and -1.5.  Releasing either key of an axis sets the
    rate of the axis to 0, also while the opposite key is still held;
    repeats and other keys change nothing. *)
Theorem key_rates_are_zero_or_one_and_a_half :
  (∀ k a w, let w' := run (keyCB k a) w in
     keyCB k a w = Ret tt w' ∧
     meshes w' = meshes w ∧ texCache w' = texCache w ∧ gl w' = gl w ∧
     trace w' = trace w ∧ ax w' = ax w ∧ ay w' = ay w ∧ aspect w' = aspect w) ∧
  (∀ cbs w, rate_ok (sx w) -> rate_ok (sy w) ->
     rate_ok (sx (run (run_callbacks cbs) w)) ∧
     rate_ok (sy (run (run_callbacks cbs) w))) ∧
  (∀ k w, (k = KEY_LEFT ∨ k = KEY_RIGHT) ->
     sy (run (keyCB k RELEASE) w) = F32.zero ∧ sx (run (keyCB k RELEASE) w) = sx w) ∧
  (∀ k w, (k = KEY_UP ∨ k = KEY_DOWN) ->
     sx (run (keyCB k RELEASE) w) = F32.zero ∧ sy (run (keyCB k RELEASE) w) = sy w) ∧
  (∀ k w, run (keyCB k REPEAT) w = w) ∧ (∀ a w, run (keyCB KEY_other a) w = w).
Proof.
  split; [apply keyCB_globals|]. split; [apply run_callbacks_rates|].
  split; [by intros k w [-> | ->]|]. split; [by intros k w [-> | ->]|].
  split; [by intros []|by intros []].
Qed.

Lemma key_rates_are_zero_or_one_and_a_half_witness :
  rate_ok (sy (run (run_callbacks [CB_key KEY_LEFT PRESS; CB_key KEY_RIGHT PRESS;
                                   CB_key KEY_RIGHT RELEASE]) World_init)).
Proof.
  destruct key_rates_are_zero_or_one_and_a_half as (_ & H & _).
  apply H; by left.
Defined.

(** ** Frames without key events *)

Lemma run_callbacks_resize_only cbs : ∀ w,
  forallb is_resize cbs = true ->
  sx (run (run_callbacks cbs) w) = sx w ∧ sy (run (run_callbacks cbs) w) = sy w.
Proof.
  induction cbs as [|cb cbs IH]; intros w H; [done|].
  cbn [forallb] in H. apply andb_true_iff in H as [Hcb H].
  destruct cb as [k a|x y]; [done|].
  assert (run (run_callbacks (CB_resize x y :: cbs)) w
          = run (run_callbacks cbs) (run (resizeCB x y) w)) as ->.
  { assert (run_callback (CB_resize x y) w = Ret tt (run (resizeCB x y) w)) as E
      by reflexivity.
    unfold run at 1. cbn [run_callbacks]. unfold mbind, Prog_bind. rewrite E.
    by rewrite run_callbacks_ret. }
  destruct (IH (run (resizeCB x y) w) H) as [-> ->]. done.
Qed.

Lemma frame_rates {glm : Glm} prev inp w :
  no_key_events inp ->
  sx (after_frame prev inp w) = sx w ∧ sy (after_frame prev inp w) = sy w.
Proof.
  intros H. unfold after_frame.
  match goal with |- context [run (run_callbacks _) ?w3] =>
    destruct (run_callbacks_resize_only (fi_events inp) w3 H) as [E1 E2] end.
  match goal with |- context [apply_calls ?cs ?w1] =>
    destruct (apply_calls_globals cs w1) as (_ & _ & _ & _ & E3 & E4 & _) end.
  split; (etrans; [first [exact E1|exact E2]|]; first [exact E3|exact E4]).
Qed.

(** X9.  Over any number of frames during which no key event arrives, the
    rates stay as they are and each angle is the running binary32 sum
    [angle + rate * dt] taken frame after frame, with [dt] the difference
    of consecutive clock readings: nothing clamps or wraps the sum. *)
Theorem angles_accumulate_over_frames {glm : Glm} inps : ∀ prev w,
  Forall no_key_events inps ->
  ∃ w', frames prev inps w = Ret (last_time prev inps) w' ∧
    sx w' = sx w ∧ sy w' = sy w ∧
    ax w' = integrate (ax w) prev (map (λ inp, (sx w, fi_time inp)) inps) ∧
    ay w' = integrate (ay w) prev (map (λ inp, (sy w, fi_time inp)) inps).
Proof.
  induction inps as [|inp inps IH]; intros prev w H.
  - by exists w.
  - apply Forall_cons in H as [Hinp H].
    destruct (frame_spec prev inp w)
      as (w1 & _ & _ & _ & E & _ & _ & Hx & Hy & _).
    assert (w1 = after_frame prev inp w) as Hw1
      by (rewrite frame_eq in E; by injection E).
    destruct (frame_rates prev inp w Hinp) as [Hsx Hsy]. rewrite <- Hw1 in Hsx, Hsy.
    destruct (IH (fi_time inp) w1 H) as (w' & E' & Hsx' & Hsy' & Hax & Hay).
    exists w'. cbn [frames last_time fold_left map integrate].
    unfold mbind, Prog_bind. rewrite E.
    split; [exact E'|]. rewrite Hsx', Hsy', Hax, Hay, Hsx, Hsy, Hx, Hy. done.
Qed.

Lemma angles_accumulate_over_frames_witness :
  ∃ w', frames (glm := glm_fixed) (F64.of_Z 0)
          [ {| fi_time := F64.of_Z 1; fi_events := [] |};
            {| fi_time := F64.of_Z 3; fi_events := [CB_resize 800 600] |} ]
          (run (keyCB KEY_DOWN PRESS) World_init) = Ret (F64.of_Z 3) w' ∧
        ax w' = F32.lit 9 2.
Proof.
  destruct (@angles_accumulate_over_frames glm_fixed
              [ {| fi_time := F64.of_Z 1; fi_events := [] |};
                {| fi_time := F64.of_Z 3; fi_events := [CB_resize 800 600] |} ]
              (F64.of_Z 0) (run (keyCB KEY_DOWN PRESS) World_init))
    as (w' & E & _ & _ & Hax & _).
  { repeat constructor. }
  exists w'. split; [exact E|]. rewrite Hax. vm_compute. reflexivity.
Defined.

(** * Further properties of the texture cache *)









(** ** Handles *)

Section Handles.
Context {stbi : Stbi}.

Lemma loadTex_handles f w t w1 :
  loadTex f w = Ret t w1 -> handles_ok w ->
  handles_ok w1 ∧
  (t = 0 ↔ texCache w !! f = None ∧ stbi_load f = None) ∧
  (t ≠ 0 -> texCache w1 !! f = Some t).
Proof.
  intros E (Hn & Hr & Hi).
  destruct (loadTex_cases f w) as (id & w' & E' & Hcase).
  rewrite E in E'. injection E' as <- <-.
  destruct Hcase as [id Hc|Hc Hd|d Hc Hd].
  - split; [done|]. specialize (Hr _ _ Hc). split; [|done].
    split; [lia|]. intros [Hc' _]. congruence.
  - split; [done|]. split; [done|]. done.
  - split; [|split].
    + split; [cbn; lia|]. split.
      * intros g id. cbn [after_upload set_texCache texCache].
        destruct (decide (f = g)) as [->|Hne].
        -- rewrite lookup_insert_eq. intros [= <-]. cbn. lia.
        -- rewrite lookup_insert_ne by done. intros Hg. specialize (Hr _ _ Hg). cbn. lia.
      * intros g h id. cbn [after_upload set_texCache texCache].
        destruct (decide (f = g)) as [Hg|Hg], (decide (f = h)) as [Hh|Hh];
          try subst g; try subst h;
          rewrite ?lookup_insert_eq, ?lookup_insert_ne by done; try done.
        -- intros [= <-] Hh'. specialize (Hr _ _ Hh'). lia.
        -- intros Hg' [= <-]. specialize (Hr _ _ Hg'). lia.
        -- apply Hi.
    + split; [lia|]. intros [_ Hd']. congruence.
    + intros _. cbn. apply lookup_insert_eq.
Qed.

Lemma resolve_material_handles M mid w m w1 :
  resolve_material M mid w = Ret m w1 -> handles_ok w ->
  handles_ok w1 ∧ mesh_tex_ok w1 m.
Proof.
  intros [(_ & -> & ->)|(_ & mat & _ & [(_ & -> & ->)|(_ & t & Ht & ->)])]%resolve_material_inv
    Hw; try done.
  destruct (loadTex_handles _ _ _ _ Ht Hw) as (Hw1 & _ & Hc).
  split; [done|]. split; [done|]. cbn. intros Hne. eexists. by apply Hc.
Qed.

Lemma mesh_tex_ok_mono w w' m :
  (∀ f id, cached f id w -> cached f id w') -> mesh_tex_ok w m -> mesh_tex_ok w' m.
Proof.
  intros Hmono [H1 H2]. split; [done|]. intros Hne. destruct (H2 Hne) as [f Hf].
  exists f. by apply Hmono.
Qed.

Lemma load_shape_handles A M shape w w' :
  load_shape A M shape w = Ret tt w' ->
  handles_ok w ∧ Forall (mesh_tex_ok w) (meshes w) ->
  handles_ok w' ∧ Forall (mesh_tex_ok w') (meshes w').
Proof.
  intros H [Hw Hms].
  assert (∀ f id, cached f id w -> cached f id w') as Hmono.
  { intros f id Hc.
    apply (preserves_load_shape (cached f id) (cached_respects f id)
             (cached_loadTex f id) A M shape w Hc w'). by rewrite H. }
  destruct (load_shape_resolves _ _ _ _ _ H) as [matName Hname].
  destruct (skipped shape matName) eqn:Hsk.
  - by rewrite (load_shape_skipped _ _ _ _ _ _ H Hname Hsk).
  - destruct (load_shape_retained _ _ _ _ _ _ H Hname Hsk)
      as (m & w1 & rs & Hr & _ & _ & ->).
    pose proof (resolve_material_frame _ _ _ _ _ Hr) as (Hms1 & _).
    destruct (resolve_material_handles _ _ _ _ _ Hr Hw) as [Hw1 Hm].
    destruct (stored_after_buffers m (flatP rs) (flatUV rs) w1) as (m' & Hm' & _ & ->).
    split; [exact Hw1|]. rewrite Hm', Hms1. apply Forall_app. split.
    + eapply Forall_impl; [exact Hms|]. intros m0. by apply mesh_tex_ok_mono.
    + constructor; [|constructor]. exact Hm.
Qed.

Lemma load_shapes_handles A M S w w' :
  load_shapes A M S w = Ret tt w' ->
  handles_ok w ∧ Forall (mesh_tex_ok w) (meshes w) ->
  handles_ok w' ∧ Forall (mesh_tex_ok w') (meshes w').
Proof.
  revert w. induction S as [|shape S IH]; intros w H Hw; cbn [load_shapes] in H.
  - by injection H as <-.
  - apply bind_Ret_inv in H as ([] & w1 & H1 & H2).
    eapply IH; [exact H2|]. by eapply load_shape_handles.
Qed.

End Handles.

(** X11.  After the import from the initial state, every handle of the
    cache is a generated name (at least 1) and no two paths share a
    handle; the handle of every mesh is 0 or a handle of the cache, and it
    is 0 for a mesh without texture.  In such a world [loadTex] returns 0
    exactly when the path is not cached and does not decode, so that 0
    always means failure, and a non-zero result is the cached handle of
    the path from then on. *)
Theorem handles_are_distinct_and_nonzero {stbi : Stbi} {tinyobj : TinyObj} file base w :
  loadOBJ file base World_init = Ret tt w ->
  handles_ok w ∧ Forall (mesh_tex_ok w) (meshes w) ∧
  ∀ f t w1, loadTex f w = Ret t w1 ->
    handles_ok w1 ∧
    (t = 0 ↔ texCache w !! f = None ∧ stbi_load f = None) ∧
    (t ≠ 0 -> texCache w1 !! f = Some t).
Proof.
  intros H.
  assert (handles_ok w ∧ Forall (mesh_tex_ok w) (meshes w)) as [Hw Hms].
  { unfold loadOBJ in H. destruct (LoadObj file base) as [p|[warn err]]; [|done].
    apply (load_shapes_handles _ _ _ _ _ H). split; [|constructor].
    split; [done|]. split.
    - intros f id Hf. change (texCache World_init) with (∅ : gmap string Z) in Hf.
      by rewrite lookup_empty in Hf.
    - intros f g id Hf. change (texCache World_init) with (∅ : gmap string Z) in Hf.
      by rewrite lookup_empty in Hf. }
  split; [exact Hw|]. split; [exact Hms|]. intros f t w1 E.
  by apply (loadTex_handles _ _ _ _ E).
Qed.

Lemma handles_are_distinct_and_nonzero_witness :
  let w := run (loadOBJ (stbi := stbi_glass) (tinyobj := tinyobj_of demo_scene) "a.obj" "./")
             World_init in
  handles_ok w ∧ Forall (mesh_tex_ok w) (meshes w).
Proof.
  intros w.
  destruct (@handles_are_distinct_and_nonzero stbi_glass (tinyobj_of demo_scene)
              "a.obj" "./" w) as (H1 & H2 & _); [reflexivity|].
  split; [exact H1|exact H2].
Defined.

(** ** Decodes of a path that decodes *)

Lemma decode_attempts_silent f evs :
  Forall (λ e, texture_silent e = true) evs -> decode_attempts f evs = 0%nat.
Proof.
  induction 1 as [|e evs He _ IH]; [done|].
  change (e :: evs) with ([e] ++ evs). rewrite decode_attempts_app, IH.
  by destruct e.
Qed.

Lemma decode_attempts_failed_other f g w :
  f ≠ g -> decode_attempts f (trace (after_failed_load g w)) = decode_attempts f (trace w).
Proof.
  intros Hne. apply String.eqb_neq in Hne.
  change (trace (after_failed_load g w))
    with ((trace w ++ [E_stbi_load g]) ++ [E_stderr ("Failed to load " +:+ g)]).
  rewrite !decode_attempts_app. unfold decode_attempts at 2 3. cbn. rewrite Hne. cbn.
  by rewrite !Nat.add_0_r.
Qed.

Lemma decode_attempts_upload_other f g d w :
  f ≠ g -> decode_attempts f (trace (after_upload g d w)) = decode_attempts f (trace w).
Proof.
  intros Hne. apply String.eqb_neq in Hne.
  change (trace (after_upload g d w))
    with (((((((trace w ++ [E_stbi_load g]) ++ [E_gl (glGenTextures (next_texture (gl w)))])
            ++ [E_gl (glBindTexture (next_texture (gl w)))])
            ++ [E_gl (glTexImage2D (if img_n d =? 3 then GL_RGB else GL_RGBA)
                        (img_w d) (img_h d) (img_data d))])
            ++ [E_gl glTexParameteri_MIN_LINEAR])
            ++ [E_gl glTexParameteri_MAG_LINEAR]) ++ [E_stbi_image_free]).
  rewrite !decode_attempts_app. unfold decode_attempts at 2 3 4 5 6 7 8. cbn.
  rewrite Hne. cbn. by rewrite !Nat.add_0_r.
Qed.

Section Decodes.
Context {stbi : Stbi}.

Lemma decodes_counted_respects : respects decodes_counted.
Proof.
  intros w w' [Hc (evs & Ht & Hs)] H f Hf. unfold decodes_counted in H.
  rewrite Ht, Hc, decode_attempts_app, (decode_attempts_silent _ _ Hs), Nat.add_0_r.
  by apply H.
Qed.

Lemma decodes_counted_loadTex g : preserves decodes_counted (loadTex g).
Proof.
  intros w Hw w' Hw' f Hf. specialize (Hw f Hf).
  destruct (loadTex_cases g w) as (id & w1 & E & Hcase). rewrite E in Hw'.
  injection Hw' as <-. destruct Hcase as [id Hc|Hc Hd|d Hc Hd].
  - done.
  - assert (f ≠ g) as Hne by (intros ->; rewrite Hd in Hf; by destruct Hf).
    rewrite (decode_attempts_failed_other _ _ _ Hne). exact Hw.
  - change (texCache (after_upload g d w)) with (<[g := next_texture (gl w)]> (texCache w)).
    destruct (decide (f = g)) as [->|Hne].
    + rewrite decode_attempts_upload, lookup_insert_eq, Hw, Hc. done.
    + rewrite (decode_attempts_upload_other _ _ _ _ Hne), lookup_insert_ne by done.
      exact Hw.
Qed.

End Decodes.

(** X12.  Over the whole run of the program from its initial state, a
    path that decodes is decoded exactly once if it has been requested
    (it is then in the cache) and never otherwise, however many shapes
    use it. *)
Theorem decodable_path_decoded_once
    {glm : Glm} {stbi : Stbi} {tinyobj : TinyObj} t0 inps w f :
  final (main_from_load t0 inps World_init) = Some w ->
  is_Some (stbi_load f) ->
  decode_attempts f (trace w) =
    match texCache w !! f with Some _ => 1%nat | None => 0%nat end.
Proof.
  intros H.
  apply (preserves_main decodes_counted decodes_counted_respects
           decodes_counted_loadTex t0 inps World_init); [|exact H].
  intros g _. reflexivity.
Qed.

Lemma decodable_path_decoded_once_witness :
  decode_attempts "glass.png"
    (trace (run (main_from_load (glm := glm_fixed) (stbi := stbi_glass)
                   (tinyobj := tinyobj_of
                      {| p_attrib := demo_attrib; p_shapes := [Glass; Glass; Glass];
                         p_materials := demo_materials |})
                   (F64.of_Z 0) []) World_init)) = 1%nat.
Proof.
  apply (@decodable_path_decoded_once glm_fixed stbi_glass
           (tinyobj_of {| p_attrib := demo_attrib; p_shapes := [Glass; Glass; Glass];
                          p_materials := demo_materials |})
           (F64.of_Z 0) []); [vm_compute; reflexivity|].
  cbn. eexists. reflexivity.
Defined.

(** ** The textures of the scene *)

Section Textures.
Context {stbi : Stbi}.

Lemma cache_sound_loadTex f w t w1 :
  loadTex f w = Ret t w1 -> cache_sound w -> cache_sound w1.
Proof.
  intros E Hw. destruct (loadTex_cases f w) as (id & w' & E' & Hcase).
  rewrite E in E'. injection E' as <- <-.
  destruct Hcase as [id Hc|Hc Hd|d Hc Hd]; try done.
  intros g id. change (texCache (after_upload f d w))
    with (<[f := next_texture (gl w)]> (texCache w)).
  destruct (decide (f = g)) as [->|Hne].
  - intros _. by rewrite Hd.
  - rewrite lookup_insert_ne by done. apply Hw.
Qed.

Lemma resolve_material_texture M shape w m w1 :
  resolve_material M (first_material_id shape) w = Ret m w1 ->
  handles_ok w -> cache_sound w ->
  handles_ok w1 ∧ cache_sound w1 ∧ mesh_texture_of w1 M shape m.
Proof.
  intros Hr Hh Hs. unfold mesh_texture_of, shape_texname, shape_material.
  apply resolve_material_inv in Hr as [(Hneg & -> & ->)|(Hpos & mat & Hmat & H)].
  - destruct (Z.leb_spec 0 (first_material_id shape)); [lia|]. done.
  - destruct (Z.leb_spec 0 (first_material_id shape)); [|lia]. rewrite Hmat. cbn.
    destruct H as [(He & -> & ->)|(He & t & Ht & ->)].
    + rewrite He. done.
    + apply String.eqb_neq in He. rewrite He.
      destruct (loadTex_handles _ _ _ _ Ht Hh) as (Hh1 & Hzero & Hc).
      pose proof (cache_sound_loadTex _ _ _ _ Ht Hs) as Hs1.
      split; [done|]. split; [done|]. split; [done|].
      change (tex (with_texture (with_material Mesh_default mat) t)) with t.
      destruct (stbi_load (diffuse_texname mat)) as [d|] eqn:Hd.
      * assert (t ≠ 0) as Hne by (intros Hz; apply Hzero in Hz as [_ ?]; done).
        split; [by apply Hc|done].
      * destruct (texCache w !! diffuse_texname mat) as [id|] eqn:Hcache.
        -- apply Hs in Hcache. rewrite Hd in Hcache. by destruct Hcache.
        -- by apply Hzero.
Qed.

Lemma mesh_texture_of_mono w w' M shape m :
  (∀ f id, cached f id w -> cached f id w') ->
  mesh_texture_of w M shape m -> mesh_texture_of w' M shape m.
Proof.
  unfold mesh_texture_of. intros Hmono.
  destruct (String.eqb _ _); [done|]. intros [H1 H2]. split; [done|].
  destruct (stbi_load _); [|done]. destruct H2 as [H2 H3]. split; [|done].
  by apply Hmono.
Qed.

Lemma load_shapes_textures A M S : ∀ w w',
  load_shapes A M S w = Ret tt w' ->
  handles_ok w -> cache_sound w ->
  handles_ok w' ∧ cache_sound w' ∧
  (∀ f id, cached f id w -> cached f id w') ∧
  ∃ ms, meshes w' = meshes w ++ ms ∧
        Forall2 (mesh_texture_of w' M) (List.filter (retained M) S) ms.
Proof.
  induction S as [|shape S IH]; intros w w' H Hh Hs; cbn [load_shapes] in H.
  - injection H as <-. split; [done|]. split; [done|]. split; [done|].
    exists []. rewrite app_nil_r. split; [done|constructor].
  - apply bind_Ret_inv in H as ([] & w1 & H1 & H2).
    assert (∀ f id, cached f id w -> cached f id w1) as Hmono1.
    { intros f id Hc.
      apply (preserves_load_shape (cached f id) (cached_respects f id)
               (cached_loadTex f id) A M shape w Hc w1). by rewrite H1. }
    assert (handles_ok w1 ∧ cache_sound w1 ∧
            if retained M shape
            then ∃ m, meshes w1 = meshes w ++ [m] ∧ mesh_texture_of w1 M shape m
            else meshes w1 = meshes w) as (Hh1 & Hs1 & Hstep).
    { unfold retained.
      destruct (load_shape_resolves _ _ _ _ _ H1) as [matName Hname]. rewrite Hname.
      destruct (skipped shape matName) eqn:Hsk; cbn [negb].
      - by rewrite (load_shape_skipped _ _ _ _ _ _ H1 Hname Hsk).
      - destruct (load_shape_retained _ _ _ _ _ _ H1 Hname Hsk)
          as (m & w0 & rs & Hr & _ & _ & ->).
        pose proof (resolve_material_frame _ _ _ _ _ Hr) as (Hms0 & _).
        destruct (resolve_material_texture _ _ _ _ _ Hr Hh Hs) as (Hh0 & Hs0 & Hm).
        destruct (stored_after_buffers m (flatP rs) (flatUV rs) w0) as (m' & Hm' & _ & ->).
        split; [exact Hh0|]. split; [exact Hs0|].
        eexists. split; [by rewrite Hm', Hms0|]. exact Hm. }
    destruct (IH w1 w' H2 Hh1 Hs1) as (Hh' & Hs' & Hmono & ms & Hms & Hall).
    split; [done|]. split; [done|]. split; [by intros f id Hc; apply Hmono, Hmono1|].
    cbn [List.filter]. destruct (retained M shape).
    + destruct Hstep as (m & Hm & Hmt). exists (m :: ms).
      split; [by rewrite Hms, Hm, <- app_assoc|].
      constructor; [|done]. by eapply mesh_texture_of_mono.
    + exists ms. by rewrite Hms, Hstep.
Qed.

End Textures.

(** X13.  After the import from the initial state, the texture of every
    mesh is determined by the texture path of its shape: a shape without
    a path gets no texture; a shape with a path gets the texture flag and,
    if the path decodes, the one non-zero handle that the cache holds for
    that path (so shapes that name the same file share one texture), and
    the handle 0 if the path does not decode. *)
Theorem mesh_textures_follow_the_cache {stbi : Stbi} {tinyobj : TinyObj} file base p w :
  LoadObj file base = inl p ->
  loadOBJ file base World_init = Ret tt w ->
  Forall2 (mesh_texture_of w (p_materials p))
    (List.filter (retained (p_materials p)) (p_shapes p)) (meshes w).
Proof.
  intros Hp H. unfold loadOBJ in H. rewrite Hp in H.
  destruct (load_shapes_textures _ _ _ _ _ H) as (_ & _ & _ & ms & Hms & Hall).
  - split; [done|]. split.
    + intros f id Hf. change (texCache World_init) with (∅ : gmap string Z) in Hf.
      by rewrite lookup_empty in Hf.
    + intros f g id Hf. change (texCache World_init) with (∅ : gmap string Z) in Hf.
      by rewrite lookup_empty in Hf.
  - intros f id Hf. change (texCache World_init) with (∅ : gmap string Z) in Hf.
    by rewrite lookup_empty in Hf.
  - by rewrite Hms.
Qed.

Lemma mesh_textures_follow_the_cache_witness :
  let w := run (loadOBJ (stbi := stbi_glass)
                  (tinyobj := tinyobj_of
                     {| p_attrib := demo_attrib; p_shapes := [Glass; Rock; Glass];
                        p_materials := demo_materials |}) "a.obj" "./") World_init in
  Forall2 (mesh_texture_of (H := stbi_glass) w demo_materials) [Glass; Rock; Glass]
    (meshes w).
Proof.
  intros w.
  exact (@mesh_textures_follow_the_cache stbi_glass
           (tinyobj_of {| p_attrib := demo_attrib; p_shapes := [Glass; Rock; Glass];
                          p_materials := demo_materials |})
           "a.obj" "./" _ w eq_refl eq_refl).
Defined.

(** ** What the import leaves alone *)

Lemma same_frame_state_trans w1 w2 w3 :
  same_frame_state w1 w2 -> same_frame_state w2 w3 -> same_frame_state w1 w3.
Proof.
  unfold same_frame_state.
  intros (A1 & A2 & A3 & A4 & A5 & A6 & A7 & A8 & A9 & A10 & A11)
         (B1 & B2 & B3 & B4 & B5 & B6 & B7 & B8 & B9 & B10 & B11).
  repeat split; etrans; eassumption.
Qed.

Lemma extends_without_draws_refl w : extends_without_draws w w.
Proof. exists []. by rewrite app_nil_r. Qed.

Lemma extends_without_draws_trans w1 w2 w3 :
  extends_without_draws w1 w2 -> extends_without_draws w2 w3 ->
  extends_without_draws w1 w3.
Proof.
  intros (e1 & H1 & F1) (e2 & H2 & F2). exists (e1 ++ e2).
  split; [by rewrite H2, H1, app_assoc|]. by apply Forall_app.
Qed.

Section Quiet.
Context {stbi : Stbi}.

Lemma loadTex_quiet f w t w1 :
  loadTex f w = Ret t w1 -> same_frame_state w w1 ∧ extends_without_draws w w1.
Proof.
  intros E. destruct (loadTex_cases f w) as (id & w' & E' & Hcase).
  rewrite E in E'. injection E' as <- <-.
  destruct Hcase as [id Hc|Hc Hd|d Hc Hd].
  - split; [done|apply extends_without_draws_refl].
  - split; [done|]. eexists [_; _]. split.
    + cbn [after_failed_load log trace]. by rewrite <- app_assoc.
    + by repeat constructor.
  - split; [done|]. eexists [_; _; _; _; _; _; _]. split.
    + cbn [after_upload log set_texCache do_call set_gl trace]. by rewrite <- !app_assoc.
    + by repeat constructor.
Qed.

Lemma after_buffers_quiet m P UV w :
  same_frame_state w (after_buffers m P UV w) ∧
  extends_without_draws w (after_buffers m P UV w).
Proof.
  split; [done|]. eexists [_; _; _; _; _; _; _; _; _; _; _; _; _]. split.
  - cbn [after_buffers log set_meshes do_call set_gl trace]. by rewrite <- !app_assoc.
  - by repeat constructor.
Qed.

Lemma load_shape_quiet A M shape w w' :
  load_shape A M shape w = Ret tt w' ->
  same_frame_state w w' ∧ extends_without_draws w w'.
Proof.
  intros H.
  destruct (load_shape_resolves _ _ _ _ _ H) as [matName Hname].
  destruct (skipped shape matName) eqn:Hsk.
  - rewrite (load_shape_skipped _ _ _ _ _ _ H Hname Hsk).
    split; [done|apply extends_without_draws_refl].
  - destruct (load_shape_retained _ _ _ _ _ _ H Hname Hsk)
      as (m & w1 & rs & Hr & _ & _ & ->).
    assert (same_frame_state w w1 ∧ extends_without_draws w w1) as [S1 T1].
    { apply resolve_material_inv in Hr
        as [(_ & _ & ->)|(_ & mat & _ & [(_ & _ & ->)|(_ & t & Ht & _)])].
      - split; [done|apply extends_without_draws_refl].
      - split; [done|apply extends_without_draws_refl].
      - by apply loadTex_quiet in Ht. }
    destruct (after_buffers_quiet m (flatP rs) (flatUV rs) w1) as [S2 T2].
    split; [by eapply same_frame_state_trans|by eapply extends_without_draws_trans].
Qed.

Lemma load_shapes_quiet A M S : ∀ w w',
  load_shapes A M S w = Ret tt w' ->
  same_frame_state w w' ∧ extends_without_draws w w'.
Proof.
  induction S as [|shape S IH]; intros w w' H; cbn [load_shapes] in H.
  - injection H as <-. split; [done|apply extends_without_draws_refl].
  - apply bind_Ret_inv in H as ([] & w1 & H1 & H2).
    apply load_shape_quiet in H1 as [S1 T1]. apply IH in H2 as [S2 T2].
    split; [by eapply same_frame_state_trans|by eapply extends_without_draws_trans].
Qed.

End Quiet.

(** X14.  The import draws nothing and sets no state of a draw: it leaves
    the angles, the rates, the aspect, the depth mask, the uniforms and
    the log of draws as they were, and the events it adds to the trace
    contain no draw call, no clear, no depth mask call, no uniform upload
    and no buffer swap. *)
Theorem import_draws_nothing {stbi : Stbi} {tinyobj : TinyObj} file base w w' :
  loadOBJ file base w = Ret tt w' ->
  same_frame_state w w' ∧ extends_without_draws w w'.
Proof.
  unfold loadOBJ. destruct (LoadObj file base) as [p|[warn err]]; [|done].
  apply load_shapes_quiet.
Qed.

Lemma import_draws_nothing_witness :
  let w := run (loadOBJ (stbi := stbi_glass) (tinyobj := tinyobj_of demo_scene) "a.obj" "./")
             World_init in
  same_frame_state World_init w ∧ extends_without_draws World_init w.
Proof.
  intros w.
  apply (@import_draws_nothing stbi_glass (tinyobj_of demo_scene) "a.obj" "./").
  reflexivity.
Defined.

(** ** The vertex count of a mesh *)

Lemma to_GLsizei_small n : 0 <= n < 2 ^ 31 -> to_GLsizei n = n.
Proof.
  intros H. unfold to_GLsizei. rewrite Z.mod_small; lia.
Qed.

(** X15.  For a retained shape with fewer than 2^31 vertices the cast to
    [GLsizei] loses nothing: the vertex count of the mesh is the number of
    vertices of the shape, the position buffer holds three floats and the
    uv buffer two floats for each of them.  A shape without faces still
    gets a mesh, with count 0 and two empty buffers. *)
Theorem verts_counts_vertices {stbi : Stbi} A M shape w w' matName :
  load_shape A M shape w = Ret tt w' ->
  resolved_name M shape = Some matName -> skipped shape matName = false ->
  Z.of_nat (vertex_count (num_face_vertices (mesh shape))) < 2 ^ 31 ->
  ∃ m P UV, meshes w' = meshes w ++ [m] ∧ stored w' m P UV ∧
    verts m = Z.of_nat (vertex_count (num_face_vertices (mesh shape))) ∧
    Z.of_nat (length P) = 3 * verts m ∧ Z.of_nat (length UV) = 2 * verts m ∧
    (num_face_vertices (mesh shape) = [] -> verts m = 0 ∧ P = [] ∧ UV = []).
Proof.
  intros H Hn Hs Hsmall.
  destruct (load_shape_retained _ _ _ _ _ _ H Hn Hs) as (m & w1 & rs & Hr & _ & Hlen & ->).
  destruct (stored_after_buffers m (flatP rs) (flatUV rs) w1) as (m' & Hm & Hst & ->).
  pose proof (resolve_material_frame _ _ _ _ _ Hr) as (Hms & _).
  eexists _, (flatP rs), (flatUV rs). split; [by rewrite Hm, Hms|]. split; [done|].
  change (verts (with_buffers ?m ?n ?a ?p ?u)) with n.
  rewrite verts_of_records, Hlen, to_GLsizei_small by lia.
  rewrite length_flatP, length_flatUV, Hlen.
  split; [done|]. split; [lia|]. split; [lia|].
  intros Hnil. rewrite Hnil in Hlen. cbn in Hlen.
  destruct rs; [|done]. rewrite Hnil. done.
Qed.

Lemma verts_counts_vertices_witness :
  ∃ m P UV,
    meshes (run (load_shape (stbi := stbi_none) demo_attrib [] Quad) World_init) = [] ++ [m] ∧
    stored (run (load_shape (stbi := stbi_none) demo_attrib [] Quad) World_init) m P UV ∧
    verts m = 4 ∧ Z.of_nat (length P) = 3 * verts m.
Proof.
  destruct (@verts_counts_vertices stbi_none demo_attrib [] Quad World_init
              (run (load_shape (stbi := stbi_none) demo_attrib [] Quad) World_init) "")
    as (m & P & UV & Hm & Hst & Hv & HP & _);
    [reflexivity|reflexivity|reflexivity|vm_compute; reflexivity|].
  exists m, P, UV. split; [exact Hm|]. split; [exact Hst|]. split; [exact Hv|exact HP].
Defined.

(** ** Resizing *)

Lemma run_callbacks_aspect cbs : ∀ w,
  aspect (run (run_callbacks cbs) w) = aspect_after cbs (aspect w).
Proof.
  induction cbs as [|cb cbs IH]; intros w; [done|].
  assert (∃ w1, run_callback cb w = Ret tt w1 ∧
                aspect w1 = match cb with
                            | CB_resize x y => aspect_of x y
                            | CB_key _ _ => aspect w
                            end) as (w1 & E & Ha).
  { destruct cb as [k a|x y].
    - exists (run (keyCB k a) w). split; [apply keyCB_globals|]. by destruct k, a.
    - eexists. split; [reflexivity|]. done. }
  assert (run (run_callbacks (cb :: cbs)) w = run (run_callbacks cbs) w1) as ->.
  { unfold run at 1. cbn [run_callbacks]. unfold mbind, Prog_bind. rewrite E.
    by rewrite run_callbacks_ret. }
  rewrite IH, Ha. done.
Qed.

(** X16.  The matrix of a frame is computed with the aspect that held when
    the frame started; the resize events that arrive during the frame set
    the aspect for the next one, the last event winning, and a height of
    0 gives the aspect 1 instead of a division by zero. *)
Theorem resize_applies_to_next_frame {glm : Glm} prev inp w :
  ∃ w', frame prev inp w = Ret (fi_time inp) w' ∧
    u_MVP (gl w') = MVP_of (aspect w) (ax w') (ay w') ∧
    aspect w' = aspect_after (fi_events inp) (aspect w) ∧
    (∀ cbs x y a, aspect_after (cbs ++ [CB_resize x y]) a = aspect_of x y) ∧
    (∀ x, aspect_of x 0 = F32.one) ∧
    ∀ inp', ∃ w'', frame (fi_time inp) inp' w' = Ret (fi_time inp') w'' ∧
      u_MVP (gl w'') = MVP_of (aspect_after (fi_events inp) (aspect w)) (ax w'') (ay w'').
Proof.
  destruct (frame_spec prev inp w)
    as (w' & _ & _ & _ & E & _ & _ & Hx & Hy & _ & Hu & _).
  assert (aspect w' = aspect_after (fi_events inp) (aspect w)) as Ha.
  { assert (w' = after_frame prev inp w) as -> by (rewrite frame_eq in E; by injection E).
    unfold after_frame. rewrite run_callbacks_aspect. f_equal.
    match goal with |- context [apply_calls ?cs ?w1] =>
      destruct (apply_calls_globals cs w1) as (_ & _ & _ & _ & _ & _ & E7) end.
    exact E7. }
  exists w'. split; [exact E|]. split; [by rewrite Hu, Hx, Hy|]. split; [exact Ha|].
  split; [intros cbs x y a; unfold aspect_after; by rewrite fold_left_app|].
  split; [done|]. intros inp'.
  destruct (frame_spec (fi_time inp) inp' w')
    as (w'' & _ & _ & _ & E' & _ & _ & Hx' & Hy' & _ & Hu' & _).
  exists w''. split; [exact E'|]. by rewrite Hu', Hx', Hy', Ha.
Qed.

(** * The program from the import to the last frame *)



(** * The face loops and the machine integers *)

Lemma to_int_small n : Z.of_nat n < 2 ^ 31 -> to_int n = Z.of_nat n.
Proof. intros H. unfold to_int, to_GLsizei. rewrite Z.mod_small; lia. Qed.

Lemma to_int_wrapped n :
  2 ^ 31 <= Z.of_nat n < 2 ^ 32 -> to_int n = Z.of_nat n - 2 ^ 32.
Proof.
  intros H. unfold to_int, to_GLsizei.
  replace (Z.of_nat n + 2 ^ 31) with (Z.of_nat n - 2 ^ 31 + 1 * 2 ^ 32) by lia.
  rewrite Z.mod_add by lia. rewrite Z.mod_small; lia.
Qed.

Lemma face_loop_int_nat W A I off n : ∀ v acc,
  Z.of_nat (off + v + n) <= 2 ^ W ->
  face_loop_int W A I (Z.of_nat off) (Z.of_nat v) n acc = face_loop A I off v n acc.
Proof.
  induction n as [|n IH]; intros v acc Hw; cbn [face_loop_int face_loop]; [done|].
  unfold to_size_t. rewrite Z.mod_small by lia.
  rewrite <- Nat2Z.inj_add, Nat2Z.id.
  destruct (I !! (off + v)%nat) as [idx|]; [|done]. cbn [mbind option_bind].
  destruct (push_vertex A idx acc) as [acc'|]; [|done]. cbn [mbind option_bind].
  replace (Z.of_nat v + 1) with (Z.of_nat (S v)) by lia. apply IH. lia.
Qed.

(** A face whose size the conversion makes negative adds no vertex and
    moves the offset back. *)
Lemma faces_loop_int_wrapped_size W A I n fvs off acc :
  2 ^ 31 <= Z.of_nat n < 2 ^ 32 ->
  faces_loop_int W A I (n :: fvs) off acc
  = faces_loop_int W A I fvs (to_size_t W (off + Z.of_nat n - 2 ^ 32)) acc.
Proof.
  intros H. cbn [faces_loop_int]. rewrite (to_int_wrapped n H).
  replace (Z.to_nat (Z.of_nat n - 2 ^ 32)) with 0%nat by lia.
  cbn [face_loop_int mbind option_bind]. do 2 f_equal. lia.
Qed.

(** X18.  The loop over the faces with natural numbers is the loop of
    lines 135-151 with its machine integers, [int fv] and [size_t off],
    whenever every face size is below [2 ^ 31] and the offset stays
    below [2 ^ W], for a [size_t] of [W] bits: on these scenes the two
    read the same index records and store the same floats, or both read
    out of range. *)
Theorem faces_loop_is_the_loop_on_machine_integers W A I fvs : ∀ off acc,
  int_sized fvs ->
  Z.of_nat (off + vertex_count fvs) < 2 ^ W ->
  faces_loop_int W A I fvs (Z.of_nat off) acc = faces_loop A I fvs off acc.
Proof.
  induction fvs as [|fv fvs IH]; intros off acc Hs Hw; cbn [faces_loop_int faces_loop];
    [done|].
  apply Forall_cons in Hs as [Hfv Hs].
  cbn [vertex_count foldr] in Hw. fold (vertex_count fvs) in Hw.
  rewrite (to_int_small fv Hfv), Nat2Z.id.
  pose proof (face_loop_int_nat W A I off fv 0 acc) as E.
  change (Z.of_nat 0) with 0 in E. rewrite E by lia. clear E.
  destruct (face_loop A I off 0 fv acc) as [acc'|]; [|done]. cbn [mbind option_bind].
  unfold to_size_t. rewrite Z.mod_small by lia.
  rewrite <- Nat2Z.inj_add. apply IH; [done|lia].
Qed.

Lemma faces_loop_is_the_loop_on_machine_integers_witness :
  faces_loop_int 64 demo_attrib [ix 0 0; ix 1 1; ix 2 (-1); ix 3 0] [3%nat; 1%nat] 0 ([], [])
  = faces_loop demo_attrib [ix 0 0; ix 1 1; ix 2 (-1); ix 3 0] [3%nat; 1%nat] 0 ([], []).
Proof.
  apply (faces_loop_is_the_loop_on_machine_integers 64 demo_attrib
           [ix 0 0; ix 1 1; ix 2 (-1); ix 3 0] [3%nat; 1%nat] 0%nat ([], [])).
  - repeat constructor.
  - vm_compute. reflexivity.
Defined.

(** Beyond these sizes the two differ.  Three faces of sizes 3,
    [2 ^ 32 - 1] and 3 over five index records: with the machine integers
    the second face is passed over and the third starts one record back,
    at the offset 2, so that six vertices are stored; the loop over
    natural numbers reads out of range. *)
Lemma oversized_face_is_passed_over :
  let I := [ix 0 0; ix 1 1; ix 2 (-1); ix 3 0; ix 0 1] in
  let fvs := [3%nat; Z.to_nat (2 ^ 32 - 1); 3%nat] in
  faces_loop_int 64 demo_attrib I fvs 0 ([], [])
  = faces_loop demo_attrib [ix 0 0; ix 1 1; ix 2 (-1); ix 2 (-1); ix 3 0; ix 0 1]
      [3%nat; 3%nat] 0 ([], []) ∧
  (∃ acc, faces_loop_int 64 demo_attrib I fvs 0 ([], []) = Some acc ∧
          length acc.1 = 18%nat ∧ length acc.2 = 12%nat) ∧
  faces_loop demo_attrib I fvs 0 ([], []) = None.
Proof.
  cbv zeta. remember (Z.to_nat (2 ^ 32 - 1)) as big eqn:Hbig.
  assert (to_int big = -1) as Hb by (rewrite to_int_wrapped; lia).
  assert (faces_loop_int 64 demo_attrib [ix 0 0; ix 1 1; ix 2 (-1); ix 3 0; ix 0 1]
            [3%nat; big; 3%nat] 0 ([], [])
          = faces_loop demo_attrib [ix 0 0; ix 1 1; ix 2 (-1); ix 2 (-1); ix 3 0; ix 0 1]
              [3%nat; 3%nat] 0 ([], [])) as E.
  { cbn [faces_loop_int]. rewrite Hb. clear. vm_compute. reflexivity. }
  split; [exact E|]. split.
  - rewrite E. clear. eexists. split; [vm_compute; reflexivity|]. split; reflexivity.
  - destruct big as [|[|[|n]]]; [lia..|]. clear. vm_compute. reflexivity.
Qed.
